(** * libphit: entropy pool, mixing hashes, compound sampling, router, PRNG

    A shallow embedding of the implementation part of [libphit.h]
    (hash functions, core sampling, routing, entropy pool, PRNG) and of the
    stand-alone pool of [phit_prng.c], with the properties the
    specification states about them.

    Conventions.
    - [uint32_t] and [uint64_t] values are integers of [Z]; every C operation
      that can leave the range is followed by its reduction ([u32], [u64]).
    - [int] arithmetic wraps in two's complement ([int32]), the behaviour of
      the targets the library names (and of CompCert C); ISO C leaves signed
      overflow undefined.
    - The monotonic timer is an oracle: the world carries the value of every
      future read and the number of reads made so far.
    - A [volatile] local holds the value the function last stored in it.
    - A call either returns, or signals a failure, or has no defined
      behaviour (unsigned remainder by zero, [memcpy] outside the buffer):
      the operations that can reach the last two return an [outcome]. *)

From Stdlib Require Import ZArith List Lia Bool Sorted.
From Equations Require Import Equations.
Import ListNotations.
Local Open Scope Z_scope.

(** ** Machine integers *)

Definition u32 (x : Z) : Z := x mod 2 ^ 32.
Definition u64 (x : Z) : Z := x mod 2 ^ 64.

(** Conversion to [int], and the result of [int] arithmetic. *)
Definition int32 (x : Z) : Z := (x + 2 ^ 31) mod 2 ^ 32 - 2 ^ 31.

Definition INT_MAX : Z := 2 ^ 31 - 1.

(** What a call can do: return a value, signal a failure to its caller
    (no function of the library has a statement that does), or run into
    behaviour the language leaves undefined. *)
Inductive outcome (A : Type) : Type :=
| Returns (a : A)
| Aborts
| Undefined.
Arguments Returns {A} a.
Arguments Aborts {A}.
Arguments Undefined {A}.

Definition obind {A B} (o : outcome A) (k : A -> outcome B) : outcome B :=
  match o with
  | Returns a => k a
  | Aborts => Aborts
  | Undefined => Undefined
  end.

(** [a % b] on unsigned operands. *)
Definition umod (a b : Z) : outcome Z :=
  if b =? 0 then Undefined else Returns (a mod b).

(** ** Configuration macros (their default values) *)

Definition PHIT_WORKLOAD_ITERS : nat := 20.
Definition PHIT_POOL_LANES : Z := 4.
Definition PHIT_PRNG_SEED_ROUNDS : Z := 16.

(** ** The world: timer oracle and the volatile sink *)

Record World : Type := mkWorld {
  clock : nat -> Z;      (* value returned by the n-th timer read *)
  ticks : nat;           (* timer reads made so far *)
  phit__sink : Z         (* static volatile uint64_t phit__sink *)
}.

Definition M (A : Type) : Type := World -> A * World.

Definition ret {A} (a : A) : M A := fun w => (a, w).

Definition bind {A B} (c : M A) (k : A -> M B) : M B :=
  fun w => let (a, w') := c w in k a w'.

Notation "x <- c ;; k" := (bind c (fun x => k))
  (at level 61, c at next level, right associativity).
Notation "c ;;; k" := (bind c (fun _ => k))
  (at level 61, right associativity).

Definition phit_now_ns : M Z :=
  fun w => (u64 (clock w (ticks w)),
            mkWorld (clock w) (S (ticks w)) (phit__sink w)).

Definition write_sink (x : Z) : M unit :=
  fun w => (tt, mkWorld (clock w) (ticks w) x).

(** [for (int i = lo; i < hi; i++) s = body(i, s);] *)
Fixpoint for_from {St} (n : nat) (i : Z) (body : Z -> St -> M St) (s : St)
  : M St :=
  match n with
  | O => ret s
  | S n' => s' <- body i s ;; for_from n' (i + 1) body s'
  end.

Definition for_loop {St} (lo hi : Z) (body : Z -> St -> M St) (s : St) : M St :=
  for_from (Z.to_nat (hi - lo)) lo body s.

(** ** Hash functions *)

Definition phit_hash32 (key : Z) : Z :=
  let key := u32 (key * 2654435761) in
  let key := Z.lxor key (Z.shiftr key 16) in
  let key := u32 (key * 0x85ebca6b) in
  let key := Z.lxor key (Z.shiftr key 13) in
  key.

Definition phit_hash64 (key : Z) : Z :=
  let key := u64 (Z.lxor key (Z.shiftr key 30) * 0xBF58476D1CE4E5B9) in
  let key := u64 (Z.lxor key (Z.shiftr key 27) * 0x94D049BB133111EB) in
  let key := Z.lxor key (Z.shiftr key 31) in
  key.

(** ** Rotation helper *)

Definition phit__rotl64 (x k : Z) : Z :=
  Z.lor (u64 (Z.shiftl x k)) (Z.shiftr x (64 - k)).

(** ** Core sampling *)

(** One step of the multiply-add workload on a [uint64_t]. *)
Definition lcg (x : Z) : Z :=
  u64 (x * 6364136223846793005 + 1442695040888963407).

(** The workload of [phit_pool_harvest] and [phit_workload]:
    multiply-add, then [x ^= x >> 17]. *)
Definition lcg_xs (x : Z) : Z :=
  let x := lcg x in Z.lxor x (Z.shiftr x 17).

Definition GOLDEN : Z := 0x9E3779B97F4A7C15.

(** [(uint32_t)((t & 0x3) | (((uint32_t)(t >> 2) ^ (uint32_t)x) << 2))] *)
Definition sample_key (t x : Z) : Z :=
  u32 (Z.lor (Z.land t 3)
             (u32 (Z.shiftl (Z.lxor (u32 (Z.shiftr t 2)) (u32 x)) 2))).

Definition phit_sample : M Z :=
  let x := Nat.iter 10 lcg 0xDEADBEEF in
  write_sink x ;;;
  t <- phit_now_ns ;;
  let key := sample_key t x in
  ret (phit_hash32 key).

(** The workload value of round [i] of the compound sample. *)
Definition compound_workload (i : Z) : Z :=
  Nat.iter 10 lcg (Z.lxor 0xDEADBEEF (u64 (u64 i * GOLDEN))).

Definition compound_body (i key : Z) : M Z :=
  let x := compound_workload i in
  write_sink x ;;;
  t <- phit_now_ns ;;
  let sample := sample_key t x in
  let key := Z.lxor key (phit_hash32 (u32 (sample + u32 i))) in
  let key := Z.lor (u32 (Z.shiftl key 7)) (Z.shiftr key 25) in
  ret key.

Definition phit_sample_compound (num_reads : Z) : M Z :=
  key <- for_loop 0 num_reads compound_body 0 ;;
  ret (phit_hash32 key).

(** ** Routing *)

(** [(int)(phit_sample_compound(2) % (uint32_t)num_destinations)] *)
Definition phit_route (num_destinations : Z) (w : World)
  : outcome (Z * World) :=
  let (s, w') := phit_sample_compound 2 w in
  obind (umod s (u32 num_destinations)) (fun r => Returns (int32 r, w')).

(** ** Entropy pool *)

Record phit_pool_t : Type := mkPool {
  pool : list Z;          (* uint64_t pool[PHIT_POOL_LANES] *)
  mix_counter : Z;        (* uint64_t *)
  bits_collected : Z      (* int *)
}.

(** [a[i]] and [a[i] = v] on the lane array; every index the code
    computes is masked with 3, so it is below the length 4. *)
Definition lane (a : list Z) (i : Z) : Z := nth (Z.to_nat i) a 0.

Fixpoint store_nat (a : list Z) (i : nat) (v : Z) : list Z :=
  match a, i with
  | [], _ => []
  | _ :: t, O => v :: t
  | h :: t, S i' => h :: store_nat t i' v
  end.

Definition store (a : list Z) (i : Z) (v : Z) : list Z :=
  store_nat a (Z.to_nat i) v.

Definition phit_pool_init : phit_pool_t :=
  mkPool (repeat 0 (Z.to_nat PHIT_POOL_LANES)) 0 0.

Definition phit_pool_feed (p : phit_pool_t) (sample : Z) : phit_pool_t :=
  let mc := u64 (mix_counter p + 1) in
  let z := u64 (sample + mc * 0x9E3779B97F4A7C15) in
  let z := u64 (Z.lxor z (Z.shiftr z 30) * 0xBF58476D1CE4E5B9) in
  let z := u64 (Z.lxor z (Z.shiftr z 27) * 0x94D049BB133111EB) in
  let z := Z.lxor z (Z.shiftr z 31) in
  let slot := int32 (Z.land mc 3) in
  let a := store (pool p) slot (Z.lxor (lane (pool p) slot) z) in
  let next := Z.land (slot + 1) 3 in
  let a := store a next (Z.lxor (lane a next) (phit__rotl64 (lane a slot) 17)) in
  mkPool a mc (int32 (bits_collected p + 2)).

(** The workload value of [phit_pool_harvest]. *)
Definition harvest_workload : Z :=
  Nat.iter PHIT_WORKLOAD_ITERS lcg_xs 0xCAFEBABE.

Definition phit_pool_harvest (p : phit_pool_t) : M phit_pool_t :=
  let x := harvest_workload in
  write_sink x ;;;
  t <- phit_now_ns ;;
  let p := phit_pool_feed p t in
  let p := phit_pool_feed p (Z.lxor x t) in
  ret p.

(** The loop at the head of [phit_pool_extract]. *)
Definition extract_harvests (p : phit_pool_t) : M phit_pool_t :=
  for_loop 0 PHIT_POOL_LANES (fun _ p => phit_pool_harvest p) p.

Definition phit_pool_extract (p : phit_pool_t) : M (Z * phit_pool_t) :=
  p <- extract_harvests p ;;
  let out := lane (pool p) 0 in
  let out := Z.lxor out (phit__rotl64 (lane (pool p) 1) 13) in
  let out := Z.lxor out (phit__rotl64 (lane (pool p) 2) 29) in
  let out := Z.lxor out (phit__rotl64 (lane (pool p) 3) 43) in
  let a := store (pool p) 0 (Z.lxor (lane (pool p) 0) (phit__rotl64 out 7)) in
  let a := store a 1 (Z.lxor (lane a 1) (phit__rotl64 out 23)) in
  ret (out, mkPool a (mix_counter p) (bits_collected p)).

(** ** PRNG *)

Record phit_prng_t : Type := mkPrng {
  prng_pool : phit_pool_t;
  generated : Z           (* uint64_t *)
}.

Definition phit_prng_init : M phit_prng_t :=
  let rng := mkPrng phit_pool_init 0 in
  p <- for_loop 0 PHIT_PRNG_SEED_ROUNDS
         (fun _ p => phit_pool_harvest p) (prng_pool rng) ;;
  ret (mkPrng p (generated rng)).

Definition phit_prng_u64 (rng : phit_prng_t) : M (Z * phit_prng_t) :=
  let g := u64 (generated rng + 1) in
  r <- phit_pool_extract (prng_pool rng) ;;
  ret (fst r, mkPrng (snd r) g).

Definition phit_prng_u32 (rng : phit_prng_t) : M (Z * phit_prng_t) :=
  r <- phit_prng_u64 rng ;;
  ret (u32 (Z.shiftr (fst r) 32), snd r).

Definition phit_prng_range (rng : phit_prng_t) (max : Z)
  : M (Z * phit_prng_t) :=
  if max =? 0 then ret (0, rng)
  else r <- phit_prng_u64 rng ;;
       ret (u32 (fst r mod max), snd r).

(** The bytes of an object of [n] bytes holding [v], lowest address first,
    on the little-endian targets of the library. *)
Fixpoint le_bytes (n : nat) (v : Z) : list Z :=
  match n with
  | O => []
  | S n' => v mod 256 :: le_bytes n' (v / 256)
  end.

(** [memcpy(buf + p, src, n)] on a buffer of [length buf] bytes. *)
Definition memcpy (buf : list Z) (p : nat) (src : list Z) (n : nat)
  : outcome (list Z) :=
  if (p + n <=? length buf)%nat
  then Returns (firstn p buf ++ firstn n src ++ skipn (p + n) buf)
  else Undefined.

(** The state of [phit_prng_fill] between statements: the generator, the
    buffer, the offset of the cursor [p] in it, the remaining [len]. *)
Definition fill_state : Type := (phit_prng_t * list Z * nat * Z * World)%type.

(** [while (len >= 8) { v = phit_prng_u64(rng); memcpy(p, &v, 8);
                        p += 8; len -= 8; }] *)
Opaque phit_prng_u64 memcpy le_bytes.
Equations? fill_while (rng : phit_prng_t) (buf : list Z) (p : nat) (len : Z)
  (w : World) : outcome fill_state by wf (Z.to_nat len) lt :=
  fill_while rng buf p len w with Z_le_gt_dec 8 len := {
    | left _ with phit_prng_u64 rng w := {
        | (v, rng', w') with memcpy buf p (le_bytes 8 v) 8 := {
            | Returns buf' => fill_while rng' buf' (p + 8)%nat (len - 8) w'
            | Aborts => Aborts
            | Undefined => Undefined } }
    | right _ => Returns (rng, buf, p, len, w) }.
Proof. lia. Qed.
Transparent phit_prng_u64 memcpy le_bytes.

Definition phit_prng_fill (rng : phit_prng_t) (buf : list Z) (len : Z)
  (w : World) : outcome (phit_prng_t * list Z * World) :=
  obind (fill_while rng buf 0 len w) (fun st =>
    let '(rng, buf, p, len, w) := st in
    if 0 <? len then
      let '(v, rng, w) := phit_prng_u64 rng w in
      obind (memcpy buf p (le_bytes 8 v) (Z.to_nat len))
            (fun buf => Returns (rng, buf, w))
    else Returns (rng, buf, w)).

(** The values of the first [k] calls of [phit_prng_u64], in order. *)
Fixpoint draws (k : nat) (rng : phit_prng_t) (w : World)
  : list Z * phit_prng_t * World :=
  match k with
  | O => ([], rng, w)
  | S k' =>
      let '(v, rng', w') := phit_prng_u64 rng w in
      let '(vs, rng'', w'') := draws k' rng' w' in
      (v :: vs, rng'', w'')
  end.

(** The next [n] timer values the world will return. *)
Definition reads (w : World) (n : nat) : list Z :=
  map (fun i => u64 (clock w (ticks w + i))) (seq 0 n).

(** The world after [n] timer reads, the sink holding [x]. *)
Definition after_reads (w : World) (n : nat) (x : Z) : World :=
  mkWorld (clock w) (ticks w + n) x.

(** * The operations in the specification's words *)

Module Spec.

Definition L : Z := 4.
Definition GOLDEN_RATIO_CONSTANT : Z := 11400714819323198485.

(** Multiply by a fixed odd constant, XOR with the value shifted right 16,
    multiply by a second constant, XOR with the value shifted right 13,
    all modulo 2^32. *)
Definition avalanche32 (x : Z) : Z :=
  let a := (x * 2654435761) mod 2 ^ 32 in
  let b := Z.lxor a (a / 2 ^ 16) in
  let c := (b * 2246822507) mod 2 ^ 32 in
  Z.lxor c (c / 2 ^ 13).

(** XOR-shift by 30 then multiply, XOR-shift by 27 then multiply,
    final XOR-shift by 31, all modulo 2^64. *)
Definition mix64 (x : Z) : Z :=
  let a := (Z.lxor x (x / 2 ^ 30) * 13787848793156543929) mod 2 ^ 64 in
  let b := (Z.lxor a (a / 2 ^ 27) * 10723151780598845931) mod 2 ^ 64 in
  Z.lxor b (b / 2 ^ 31).

(** feed(pool, sample): the lanes and the mix counter. *)
Definition feed_counter (p : phit_pool_t) : Z :=
  (mix_counter p + 1) mod 2 ^ 64.

Definition feed_lanes (p : phit_pool_t) (sample : Z) : list Z :=
  let mc := feed_counter p in
  let z := mix64 ((sample + mc * GOLDEN_RATIO_CONSTANT) mod 2 ^ 64) in
  let slot := mc mod L in
  let a := store (pool p) slot (Z.lxor (lane (pool p) slot) z) in
  let next := (slot + 1) mod L in
  store a next (Z.lxor (lane a next) (phit__rotl64 (lane a slot) 17)).

(** harvest(pool) at timer value [t]: feed the raw timer value, then
    timer XOR workload-result. *)
Definition harvest_at (t : Z) (p : phit_pool_t) : phit_pool_t :=
  phit_pool_feed (phit_pool_feed p t) (Z.lxor t harvest_workload).

(** The output of extract over the lanes. *)
Definition output (a : list Z) : Z :=
  Z.lxor (Z.lxor (Z.lxor (lane a 0) (phit__rotl64 (lane a 1) 13))
                 (phit__rotl64 (lane a 2) 29))
         (phit__rotl64 (lane a 3) 43).

Definition rotl32 (x k : Z) : Z :=
  Z.lor ((x * 2 ^ k) mod 2 ^ 32) (x / 2 ^ (32 - k)).

(** The fold of compound_sample over the timer values read, [inner] being
    what is applied to the offset step-2-3 result before the XOR. *)
Fixpoint compound_fold (inner : Z -> Z) (i : Z) (ts : list Z) (acc : Z) : Z :=
  match ts with
  | [] => acc
  | t :: ts' =>
      let key := sample_key t (compound_workload i) in
      let acc := Z.lxor acc (inner ((key + i) mod 2 ^ 32)) in
      compound_fold inner (i + 1) ts' (rotl32 acc 7)
  end.

(** The fold read word for word: the offset result itself is XORed in,
    the hash is applied once, at the end. *)
Definition compound_claimed (ts : list Z) : Z :=
  avalanche32 (compound_fold (fun s => s) 0 ts 0).

(** The fold with the hash of each offset result XORed in. *)
Definition compound_hashed (ts : list Z) : Z :=
  avalanche32 (compound_fold avalanche32 0 ts 0).

End Spec.

(** ** The stand-alone pool of [phit_prng.c] *)

Definition rotl64 (x k : Z) : Z :=
  Z.lor (u64 (Z.shiftl x k)) (Z.shiftr x (64 - k)).

Definition pool_feed (p : phit_pool_t) (phit_sample : Z) : phit_pool_t :=
  let mc := u64 (mix_counter p + 1) in
  let z := u64 (phit_sample + mc * 0x9E3779B97F4A7C15) in
  let z := u64 (Z.lxor z (Z.shiftr z 30) * 0xBF58476D1CE4E5B9) in
  let z := u64 (Z.lxor z (Z.shiftr z 27) * 0x94D049BB133111EB) in
  let z := Z.lxor z (Z.shiftr z 31) in
  let slot := int32 (Z.land mc 3) in
  let a := store (pool p) slot (Z.lxor (lane (pool p) slot) z) in
  let next := Z.land (slot + 1) 3 in
  let a := store a next (Z.lxor (lane a next) (rotl64 (lane a slot) 17)) in
  mkPool a mc (int32 (bits_collected p + 2)).

(** The mix counter as each of [n] successive calls of
    [phit_pool_extract] on one pool leaves it. *)
Fixpoint extract_counters (n : nat) (p : phit_pool_t) (w : World) : list Z :=
  match n with
  | O => []
  | S n' =>
      let '(_, p', w') := phit_pool_extract p w in
      mix_counter p' :: extract_counters n' p' w'
  end.

(** The lanes after the mutation step of extract. *)
Definition mutated (a : list Z) (out : Z) : list Z :=
  [Z.lxor (lane a 0) (phit__rotl64 out 7);
   Z.lxor (lane a 1) (phit__rotl64 out 23);
   lane a 2; lane a 3].

(** A call of a function whose body has no undefined step and no failing
    statement: it returns. *)
Definition call {A} (c : M A) (w : World) : outcome (A * World) :=
  Returns (c w).

(** The contract the specification asks of a violated precondition: the
    call signals a failure. *)
Definition rejects {A} (o : outcome A) : Prop := o = Aborts.

(** ** The other functions of [libphit.h] *)

(** [(int)((delta_ns + 21) / 42)] on a [uint64_t]. *)
Definition phit__quantize (delta_ns : Z) : Z :=
  int32 (u64 (delta_ns + 21) / 42).

(** What the types of [phit_pool_t] say of its fields. *)
Definition is_u64 (x : Z) : Prop := 0 <= x < 2 ^ 64.

Definition pool_wf (p : phit_pool_t) : Prop :=
  length (pool p) = 4%nat
  /\ Forall is_u64 (pool p)
  /\ is_u64 (mix_counter p)
  /\ - 2 ^ 31 <= bits_collected p < 2 ^ 31.

(** ** The other functions of the pool of [phit_prng.c] *)

Definition pool_harvest (p : phit_pool_t) : M phit_pool_t :=
  let x := Nat.iter 20 lcg_xs 0xCAFEBABE in
  write_sink x ;;;
  t <- phit_now_ns ;;
  let p := pool_feed p t in
  let p := pool_feed p (Z.lxor x t) in
  ret p.

Definition pool_extract (p : phit_pool_t) : M (Z * phit_pool_t) :=
  p <- for_loop 0 4 (fun _ p => pool_harvest p) p ;;
  let out := lane (pool p) 0 in
  let out := Z.lxor out (rotl64 (lane (pool p) 1) 13) in
  let out := Z.lxor out (rotl64 (lane (pool p) 2) 29) in
  let out := Z.lxor out (rotl64 (lane (pool p) 3) 43) in
  let a := store (pool p) 0 (Z.lxor (lane (pool p) 0) (rotl64 out 7)) in
  let a := store a 1 (Z.lxor (lane a 1) (rotl64 out 23)) in
  ret (out, mkPool a (mix_counter p) (bits_collected p)).

Definition prng_init : M phit_prng_t :=
  let rng := mkPrng (mkPool [0; 0; 0; 0] 0 0) 0 in
  p <- for_loop 0 16 (fun _ p => pool_harvest p) (prng_pool rng) ;;
  ret (mkPrng p (generated rng)).

Definition prng_u64 (rng : phit_prng_t) : M (Z * phit_prng_t) :=
  let g := u64 (generated rng + 1) in
  r <- pool_extract (prng_pool rng) ;;
  ret (fst r, mkPrng (snd r) g).

(** [(uint32_t)(prng_u64(rng) % max)], with no test of [max]. *)
Definition prng_range (rng : phit_prng_t) (max : Z) (w : World)
  : outcome (Z * phit_prng_t * World) :=
  let '(v, rng', w') := prng_u64 rng w in
  obind (umod v max) (fun r => Returns (u32 r, rng', w')).

(** ** The router of [phit_scheduler.c] *)

Module Scheduler.

Definition phit_hash (key : Z) : Z :=
  let key := u32 (key * 2654435761) in
  let key := Z.lxor key (Z.shiftr key 16) in
  let key := u32 (key * 0x85ebca6b) in
  let key := Z.lxor key (Z.shiftr key 13) in
  key.

(** [return key % num_workers;] with [key] a [uint32_t] and [num_workers]
    an [int]: the remainder is taken on [unsigned int] and converted to
    the [int] returned. *)
Definition phit_route (num_workers : Z) (w : World) : outcome (Z * World) :=
  let x := Nat.iter 10 lcg 0xDEADBEEF in
  let '(_, w) := write_sink x w in
  let '(t, w) := phit_now_ns w in
  let key := sample_key t x in
  let key := phit_hash key in
  obind (umod key (u32 num_workers)) (fun r => Returns (int32 r, w)).

Record thread_arg_t : Type := mkArg {
  worker_id : Z;        (* int *)
  num_workers : Z;      (* int *)
  tasks_done : Z;       (* int *)
  result : Z            (* uint64_t *)
}.

(** The loop of [worker_thread] from task [i], [n] tasks left: route the
    task and, when it falls on this worker, do its work. *)
Fixpoint worker_loop (n : nat) (i : Z) (a : thread_arg_t) (w : World)
  : outcome (thread_arg_t * World) :=
  match n with
  | O => Returns (a, w)
  | S n' =>
      obind (phit_route (num_workers a) w) (fun r =>
        let '(assigned, w) := r in
        let a :=
          if assigned =? worker_id a then
            let x := u64 i in
            let x := u64 (x * 2654435761 + 1) in
            mkArg (worker_id a) (num_workers a)
                  (int32 (tasks_done a + 1)) (Z.lxor (result a) x)
          else a in
        worker_loop n' (i + 1) a w)
  end.

(** One thread's run of [worker_thread]; the timer values are those its
    own reads return. *)
Definition worker_thread (a : thread_arg_t) (w : World)
  : outcome (thread_arg_t * World) :=
  let a := mkArg (worker_id a) (num_workers a) 0 0 in
  worker_loop (Z.to_nat 50000) 0 a w.

End Scheduler.

(** ** Phase-keyed encryption of [phit_crypto.c] *)

Module Crypto.
Section Keystream.

(** The key and the time are [double]s.  The part of
    [phase_keystream_byte] computed in floating point, up to the
    conversion [(uint64_t)(combined * 1e15)], is a parameter: [phase_seed
    key t index] is the integer that conversion yields. *)
Variables phase_key_t double : Type.
Variable phase_seed : phase_key_t -> double -> Z -> Z.

Definition phase_keystream_byte (key : phase_key_t) (t : double) (index : Z)
  : Z :=
  let x := u64 (phase_seed key t index) in
  let x := Z.lxor x (Z.shiftr x 30) in
  let x := u64 (x * 0xBF58476D1CE4E5B9) in
  let x := Z.lxor x (Z.shiftr x 27) in
  let x := u64 (x * 0x94D049BB133111EB) in
  let x := Z.lxor x (Z.shiftr x 31) in
  Z.land x 0xFF.

(** [for (int i = ...; i < len; i++) cipher[i] = plain[i] ^ keystream;]
    from index [i], [n] iterations left; an index outside either array
    has no defined behaviour. *)
Fixpoint encrypt_from (key : phase_key_t) (t : double) (plain : list Z)
  (n : nat) (i : Z) (cipher : list Z) : outcome (list Z) :=
  match n with
  | O => Returns cipher
  | S n' =>
      match nth_error plain (Z.to_nat i) with
      | Some b =>
          if (Z.to_nat i <? length cipher)%nat then
            encrypt_from key t plain n' (i + 1)
              (store cipher i
                 (Z.lxor b (phase_keystream_byte key t i) mod 2 ^ 8))
          else Undefined
      | None => Undefined
      end
  end.

Definition phase_encrypt (key : phase_key_t) (t : double)
  (plain cipher : list Z) (len : Z) : outcome (list Z) :=
  encrypt_from key t plain (Z.to_nat len) 0 cipher.

(** Decrypt = encrypt. *)
Definition phase_decrypt (key : phase_key_t) (t : double)
  (cipher plain : list Z) (len : Z) : outcome (list Z) :=
  phase_encrypt key t cipher plain len.

End Keystream.
End Crypto.

(** Bit [i] of a 64-bit value, the index taken modulo 64. *)
Definition bit64 (x i : Z) : bool := Z.testbit x (i mod 64).

(** A value of type [uint8_t]. *)
Definition is_byte (b : Z) : Prop := 0 <= b < 256.

(** Sample inputs. *)
Definition world0 : World := mkWorld (fun _ => 0) 0 0.
Definition rng0 : phit_prng_t := mkPrng phit_pool_init 0.

(** * Properties *)

(** ** Machine integers and bit operations *)

Lemma u32_range x : 0 <= u32 x < 2 ^ 32.
Proof. unfold u32. apply Z.mod_pos_bound. lia. Qed.

Lemma u64_range x : 0 <= u64 x < 2 ^ 64.
Proof. unfold u64. apply Z.mod_pos_bound. lia. Qed.

Lemma u64_small x : 0 <= x < 2 ^ 64 -> u64 x = x.
Proof. intros H. unfold u64. apply Z.mod_small. exact H. Qed.

Lemma int32_small x : - 2 ^ 31 <= x < 2 ^ 31 -> int32 x = x.
Proof.
  intros H. unfold int32. rewrite Z.mod_small; lia.
Qed.

Lemma lxor_range n a b :
  0 < n -> 0 <= a < 2 ^ n -> 0 <= b < 2 ^ n -> 0 <= Z.lxor a b < 2 ^ n.
Proof.
  intros Hn [Ha Ha'] [Hb Hb'].
  assert (H0 : 0 <= Z.lxor a b) by (apply Z.lxor_nonneg; tauto).
  split; [exact H0|].
  destruct (Z.eq_dec (Z.lxor a b) 0) as [E|E].
  - rewrite E. apply Z.pow_pos_nonneg; lia.
  - apply Z.log2_lt_pow2; [lia|].
    pose proof (Z.log2_lxor a b Ha Hb) as Hl.
    assert (Z.log2 a < n).
    { destruct (Z.eq_dec a 0) as [->|]; [simpl; lia|].
      apply Z.log2_lt_pow2; lia. }
    assert (Z.log2 b < n).
    { destruct (Z.eq_dec b 0) as [->|]; [simpl; lia|].
      apply Z.log2_lt_pow2; lia. }
    lia.
Qed.

Lemma shiftr_range n a k :
  0 <= k -> 0 <= a < 2 ^ n -> 0 <= Z.shiftr a k < 2 ^ n.
Proof.
  intros Hk [Ha Ha'].
  rewrite Z.shiftr_div_pow2 by exact Hk.
  assert (0 < 2 ^ k) by (apply Z.pow_pos_nonneg; lia).
  split.
  - apply Z.div_pos; lia.
  - apply Z.le_lt_trans with a; [|exact Ha'].
    apply Z.div_le_upper_bound; [lia|]. nia.
Qed.

Lemma xorshift_range n a k :
  0 < n -> 0 <= k -> 0 <= a < 2 ^ n ->
  0 <= Z.lxor a (Z.shiftr a k) < 2 ^ n.
Proof.
  intros Hn Hk Ha. apply lxor_range; [exact Hn|exact Ha|].
  apply shiftr_range; assumption.
Qed.

(** [phit__rotl64] is a rotation of the 64 bits of its argument. *)
Lemma testbit_above x n i :
  0 <= x < 2 ^ n -> 0 <= n <= i -> Z.testbit x i = false.
Proof.
  intros Hx Hi. rewrite <- (Z.mod_small x (2 ^ n)) by exact Hx.
  apply Z.mod_pow2_bits_high. exact Hi.
Qed.

Lemma rotl64_testbit x k i :
  0 <= x < 2 ^ 64 -> 0 < k < 64 -> 0 <= i < 64 ->
  Z.testbit (phit__rotl64 x k) i = Z.testbit x ((i - k) mod 64).
Proof.
  intros Hx Hk Hi. unfold phit__rotl64, u64.
  rewrite Z.lor_spec, Z.mod_pow2_bits_low by lia.
  rewrite Z.shiftl_spec, Z.shiftr_spec by lia.
  destruct (Z.lt_ge_cases i k) as [Hlt|Hge].
  - rewrite (Z.testbit_neg_r x (i - k)) by lia. rewrite orb_false_l.
    f_equal. apply (Z.mod_unique (i - k) 64 (-1)); lia.
  - rewrite (testbit_above x 64 (i + (64 - k))) by lia.
    rewrite orb_false_r. f_equal. symmetry. apply Z.mod_small. lia.
Qed.

Lemma rotl64_range x k :
  0 <= x < 2 ^ 64 -> 0 < k < 64 -> 0 <= phit__rotl64 x k < 2 ^ 64.
Proof.
  intros Hx Hk. unfold phit__rotl64.
  assert (Ha : 0 <= u64 (Z.shiftl x k) < 2 ^ 64) by apply u64_range.
  assert (Hb : 0 <= Z.shiftr x (64 - k) < 2 ^ 64)
    by (apply shiftr_range; [lia|exact Hx]).
  split; [apply Z.lor_nonneg; lia|].
  destruct (Z.eq_dec (Z.lor (u64 (Z.shiftl x k)) (Z.shiftr x (64 - k))) 0) as [E|E];
    [rewrite E; lia|].
  apply Z.log2_lt_pow2; [pose proof (proj2 (Z.lor_nonneg _ _) (conj (proj1 Ha) (proj1 Hb))); lia|].
  rewrite Z.log2_lor by lia.
  assert (forall y, 0 <= y < 2 ^ 64 -> Z.log2 y < 64).
  { intros y Hy. destruct (Z.eq_dec y 0) as [->|]; [simpl; lia|].
    apply Z.log2_lt_pow2; lia. }
  pose proof (H _ Ha). pose proof (H _ Hb). lia.
Qed.

Lemma phit_hash32_range x : 0 <= phit_hash32 x < 2 ^ 32.
Proof.
  unfold phit_hash32.
  apply (xorshift_range 32); [lia|lia|apply u32_range].
Qed.

Lemma phit_hash64_range x : 0 <= phit_hash64 x < 2 ^ 64.
Proof.
  unfold phit_hash64.
  apply (xorshift_range 64); [lia|lia|apply u64_range].
Qed.

Lemma phit_hash32_avalanche32 x : phit_hash32 x = Spec.avalanche32 x.
Proof.
  unfold phit_hash32, Spec.avalanche32, u32.
  rewrite !Z.shiftr_div_pow2 by lia. reflexivity.
Qed.

Lemma phit_hash64_mix64 x : phit_hash64 x = Spec.mix64 x.
Proof.
  unfold phit_hash64, Spec.mix64, u64.
  rewrite !Z.shiftr_div_pow2 by lia. reflexivity.
Qed.

(** C8. The two mixing primitives are functions of their argument alone
    (they take no world and no pool), and they are bit-exact: for every [x],
    [phit_hash32 x] is the avalanche hash of the specification (multiply by
    the odd constant 2654435761, XOR with the value shifted right 16,
    multiply by 0x85EBCA6B, XOR with the value shifted right 13, modulo
    2^32) and [phit_hash64 x] is its mix64 (XOR-shift 30, multiply by
    0xBF58476D1CE4E5B9, XOR-shift 27, multiply by 0x94D049BB133111EB,
    XOR-shift 31, modulo 2^64); both stay in their width, and equal
    arguments give equal results. *)
Theorem hash_primitives_bit_exact :
  (forall x, phit_hash32 x = Spec.avalanche32 x /\ 0 <= phit_hash32 x < 2 ^ 32)
  /\ (forall x, phit_hash64 x = Spec.mix64 x /\ 0 <= phit_hash64 x < 2 ^ 64)
  /\ Z.odd 2654435761 = true
  /\ 0x85ebca6b = 2246822507
  /\ (forall x y, x = y ->
        phit_hash32 x = phit_hash32 y /\ phit_hash64 x = phit_hash64 y)
  /\ phit_hash32 42 = 4085270479
  /\ phit_hash32 43 = 4208537657.
Proof.
  split; [|split; [|split; [|split; [|split; [|split]]]]].
  - intros x. split; [apply phit_hash32_avalanche32|apply phit_hash32_range].
  - intros x. split; [apply phit_hash64_mix64|apply phit_hash64_range].
  - reflexivity.
  - reflexivity.
  - intros x y ->. split; reflexivity.
  - vm_compute. reflexivity.
  - vm_compute. reflexivity.
Qed.

(** ** The lane array *)

Lemma land_3_mod_4 x : Z.land x 3 = x mod 4.
Proof.
  change 3 with (Z.ones 2). rewrite Z.land_ones by lia. reflexivity.
Qed.

Lemma mod_4_cases x :
  x mod 4 = 0 \/ x mod 4 = 1 \/ x mod 4 = 2 \/ x mod 4 = 3.
Proof. pose proof (Z.mod_pos_bound x 4). lia. Qed.

Lemma length_store_nat a i v : length (store_nat a i v) = length a.
Proof.
  revert i. induction a as [|h t IH]; intros [|i]; simpl; auto.
Qed.

Lemma length_store a i v : length (store a i v) = length a.
Proof. apply length_store_nat. Qed.

Lemma four_lanes (a : list Z) :
  length a = 4%nat -> exists a0 a1 a2 a3, a = [a0; a1; a2; a3].
Proof.
  destruct a as [|a0 [|a1 [|a2 [|a3 [|? ?]]]]]; simpl; try discriminate.
  intros _. eauto.
Qed.

(** The feed of the code, in the specification's terms. *)
Lemma phit_pool_feed_spec p sample :
  phit_pool_feed p sample =
  mkPool (Spec.feed_lanes p sample) (Spec.feed_counter p)
         (int32 (bits_collected p + 2)).
Proof.
  unfold phit_pool_feed, Spec.feed_lanes, Spec.feed_counter, Spec.L,
    Spec.GOLDEN_RATIO_CONSTANT.
  cbv zeta.
  set (mc := u64 (mix_counter p + 1)).
  change ((mix_counter p + 1) mod 2 ^ 64) with mc.
  assert (Hs : int32 (Z.land mc 3) = mc mod 4).
  { rewrite land_3_mod_4. apply int32_small.
    pose proof (Z.mod_pos_bound mc 4). lia. }
  rewrite Hs, land_3_mod_4.
  rewrite <- (phit_hash64_mix64 ((sample + mc * 11400714819323198485) mod 2 ^ 64)).
  reflexivity.
Qed.

Lemma pool_feed_same p sample : pool_feed p sample = phit_pool_feed p sample.
Proof. reflexivity. Qed.

Lemma length_pool_feed p sample :
  length (pool (phit_pool_feed p sample)) = length (pool p).
Proof.
  unfold phit_pool_feed. cbv zeta. cbn [pool].
  rewrite !length_store. reflexivity.
Qed.

(** C3. One feed, as the specification words it.  With [mc] the incremented
    mix counter (modulo 2^64), [z = mix64 (sample + mc * 0x9E3779B97F4A7C15)]
    (modulo 2^64) and [slot = mc mod 4]: the counter becomes [mc]; lane
    [slot] is XORed with [z]; lane [(slot+1) mod 4] is XORed with the 17-bit
    left rotation of the new value of lane [slot]; the other lanes keep
    their values; [bits_collected] is incremented by 2 in the [int] type,
    which is exactly 2 more whenever the sum is representable.  The pool of
    [phit_prng.c] does the same.  The rotation moves bit [i - 17] (modulo
    64) of a 64-bit value to position [i].  Feeding 1, 2, 3 to the all-zero
    pool gives the lane values of the reference computation. *)
Theorem feed_contract (p : phit_pool_t) (sample : Z) :
  length (pool p) = 4%nat ->
  let p' := phit_pool_feed p sample in
  let mc := (mix_counter p + 1) mod 2 ^ 64 in
  let z := Spec.mix64 ((sample + mc * 0x9E3779B97F4A7C15) mod 2 ^ 64) in
  let slot := mc mod 4 in
  let next := (slot + 1) mod 4 in
  mix_counter p' = mc
  /\ lane (pool p') slot = Z.lxor (lane (pool p) slot) z
  /\ lane (pool p') next =
       Z.lxor (lane (pool p) next) (phit__rotl64 (lane (pool p') slot) 17)
  /\ (forall j, 0 <= j < 4 -> j <> slot -> j <> next ->
        lane (pool p') j = lane (pool p) j)
  /\ length (pool p') = 4%nat
  /\ bits_collected p' = int32 (bits_collected p + 2)
  /\ (- 2 ^ 31 <= bits_collected p <= INT_MAX - 2 ->
        bits_collected p' = bits_collected p + 2)
  /\ pool_feed p sample = p'
  /\ (forall x i, 0 <= x < 2 ^ 64 -> 0 <= i < 64 ->
        Z.testbit (phit__rotl64 x 17) i = Z.testbit x ((i - 17) mod 64))
  /\ phit_pool_feed (phit_pool_feed (phit_pool_feed phit_pool_init 1) 2) 3 =
       mkPool [0x18b151fa2a466985; 0x910a2dec89025cc1;
               0xe4115414b27f3c56; 0x34c28c58a8fd1523] 3 6.
Proof.
  intros Hlen p' mc z slot next.
  assert (Hp' : p' = mkPool (Spec.feed_lanes p sample) (Spec.feed_counter p)
                            (int32 (bits_collected p + 2)))
    by apply phit_pool_feed_spec.
  assert (Hlanes : pool p' = Spec.feed_lanes p sample) by (rewrite Hp'; reflexivity).
  destruct (four_lanes _ Hlen) as (a0 & a1 & a2 & a3 & Ha).
  unfold Spec.feed_lanes in Hlanes. cbv zeta in Hlanes.
  change (Spec.feed_counter p) with mc in Hlanes.
  change Spec.GOLDEN_RATIO_CONSTANT with 0x9E3779B97F4A7C15 in Hlanes.
  fold z in Hlanes. change Spec.L with 4 in Hlanes.
  fold slot in Hlanes. fold next in Hlanes.
  rewrite Ha in Hlanes.
  split; [rewrite Hp'; reflexivity|].
  assert (Hexact : - 2 ^ 31 <= bits_collected p <= INT_MAX - 2 ->
                   int32 (bits_collected p + 2) = bits_collected p + 2).
  { intros Hb. apply int32_small. unfold INT_MAX in Hb. lia. }
  assert (Hreg : phit_pool_feed (phit_pool_feed (phit_pool_feed phit_pool_init 1) 2) 3 =
       mkPool [0x18b151fa2a466985; 0x910a2dec89025cc1;
               0xe4115414b27f3c56; 0x34c28c58a8fd1523] 3 6)
    by (vm_compute; reflexivity).
  assert (Hbits : bits_collected p' = int32 (bits_collected p + 2))
    by (rewrite Hp'; reflexivity).
  assert (Hlen' : length (pool p') = 4%nat)
    by (unfold p'; rewrite length_pool_feed; exact Hlen).
  rewrite Hlanes, Ha.
  clearbody z. clear Hp' Hlanes Hreg.
  assert (Hnext : next = (slot + 1) mod 4) by reflexivity.
  clearbody next.
  destruct (mod_4_cases mc) as [E|[E|[E|E]]]; fold slot in E;
    rewrite E in *; change ((0 + 1) mod 4) with 1 in Hnext;
    change ((1 + 1) mod 4) with 2 in Hnext;
    change ((2 + 1) mod 4) with 3 in Hnext;
    change ((3 + 1) mod 4) with 0 in Hnext; subst next;
    (split; [reflexivity|]); (split; [reflexivity|]);
    (split; [intros j Hj Hj1 Hj2;
             assert (Hc : j = 0 \/ j = 1 \/ j = 2 \/ j = 3) by lia;
             destruct Hc as [ -> | [ -> | [ -> | -> ] ] ]; try contradiction; reflexivity|]);
    (split; [reflexivity|]); (split; [exact Hbits|]);
    (split; [intros Hb; rewrite Hbits; apply Hexact; exact Hb|]);
    (split; [apply pool_feed_same|]);
    (split; [intros x i Hx Hi; apply rotl64_testbit; lia|]);
    vm_compute; reflexivity.
Qed.

(** ** Harvest and extract *)

Lemma phit_pool_harvest_run p w :
  phit_pool_harvest p w =
  (Spec.harvest_at (u64 (clock w (ticks w))) p,
   after_reads w 1 harvest_workload).
Proof.
  unfold phit_pool_harvest, Spec.harvest_at, after_reads, bind, write_sink,
    phit_now_ns, ret.
  cbn [clock ticks phit__sink].
  rewrite Nat.add_1_r, (Z.lxor_comm harvest_workload). reflexivity.
Qed.

Lemma after_reads_clock w n x : clock (after_reads w n x) = clock w.
Proof. reflexivity. Qed.

Lemma after_reads_ticks w n x : ticks (after_reads w n x) = (ticks w + n)%nat.
Proof. reflexivity. Qed.

Lemma after_reads_twice w n m x y :
  after_reads (after_reads w n x) m y = after_reads w (n + m) y.
Proof.
  unfold after_reads. cbn [clock ticks]. rewrite Nat.add_assoc. reflexivity.
Qed.

Lemma extract_harvests_run p w :
  extract_harvests p w =
  (Spec.harvest_at (u64 (clock w (ticks w + 3)))
     (Spec.harvest_at (u64 (clock w (ticks w + 2)))
        (Spec.harvest_at (u64 (clock w (ticks w + 1)))
           (Spec.harvest_at (u64 (clock w (ticks w + 0))) p))),
   after_reads w 4 harvest_workload).
Proof.
  unfold extract_harvests, for_loop.
  change (Z.to_nat (PHIT_POOL_LANES - 0)) with 4%nat.
  cbn [for_from]. unfold bind, ret.
  rewrite !phit_pool_harvest_run.
  rewrite !after_reads_twice, !after_reads_clock, !after_reads_ticks.
  rewrite Nat.add_0_r. reflexivity.
Qed.

Lemma length_harvest_at t p :
  length (pool (Spec.harvest_at t p)) = length (pool p).
Proof. unfold Spec.harvest_at. rewrite !length_pool_feed. reflexivity. Qed.

Lemma phit_pool_extract_run p w :
  length (pool p) = 4%nat ->
  phit_pool_extract p w =
  let p4 := fst (extract_harvests p w) in
  let out := Spec.output (pool p4) in
  (out, mkPool (mutated (pool p4) out) (mix_counter p4) (bits_collected p4),
   after_reads w 4 harvest_workload).
Proof.
  intros Hlen. unfold phit_pool_extract, bind, ret.
  rewrite extract_harvests_run. cbn [fst]. cbv zeta.
  set (p4 := Spec.harvest_at _ _).
  assert (H4 : length (pool p4) = 4%nat).
  { unfold p4. rewrite !length_harvest_at. exact Hlen. }
  destruct (four_lanes _ H4) as (a0 & a1 & a2 & a3 & Ha).
  rewrite Ha. reflexivity.
Qed.

(** C1. [phit_pool_extract] always returns.  It makes exactly four
    harvests, each of which writes the fixed workload value to the sink,
    reads the timer once and feeds twice (the timer value, then timer XOR
    workload value); its output is
    lane0 XOR rotl(lane1,13) XOR rotl(lane2,29) XOR rotl(lane3,43)
    over the lanes after the four harvests; the pool it leaves has
    rotl(output,7) XORed into lane 0 and rotl(output,23) into lane 1,
    lanes 2 and 3 and both counters as the harvests left them; the value
    returned is that output.  [rotl] by [k] moves bit [i - k] (modulo 64) of
    a 64-bit value to position [i]. *)
Theorem extract_contract (p : phit_pool_t) (w : World) :
  length (pool p) = 4%nat ->
  let t := fun i : nat => u64 (clock w (ticks w + i)) in
  let p4 := Spec.harvest_at (t 3%nat) (Spec.harvest_at (t 2%nat)
              (Spec.harvest_at (t 1%nat) (Spec.harvest_at (t 0%nat) p))) in
  let a := pool p4 in
  let out := Z.lxor (Z.lxor (Z.lxor (lane a 0) (phit__rotl64 (lane a 1) 13))
                            (phit__rotl64 (lane a 2) 29))
                    (phit__rotl64 (lane a 3) 43) in
  (forall q v, phit_pool_harvest q v =
     (phit_pool_feed (phit_pool_feed q (u64 (clock v (ticks v))))
        (Z.lxor (u64 (clock v (ticks v))) harvest_workload),
      mkWorld (clock v) (ticks v + 1) harvest_workload))
  /\ extract_harvests p w = (p4, mkWorld (clock w) (ticks w + 4) harvest_workload)
  /\ (forall x k i, 0 <= x < 2 ^ 64 -> 0 < k < 64 -> 0 <= i < 64 ->
        Z.testbit (phit__rotl64 x k) i = Z.testbit x ((i - k) mod 64))
  /\ phit_pool_extract p w =
       (out,
        mkPool [Z.lxor (lane a 0) (phit__rotl64 out 7);
                Z.lxor (lane a 1) (phit__rotl64 out 23);
                lane a 2; lane a 3]
               (mix_counter p4) (bits_collected p4),
        mkWorld (clock w) (ticks w + 4) harvest_workload).
Proof.
  intros Hlen t p4 a out.
  split; [intros q v; apply phit_pool_harvest_run|].
  split; [apply extract_harvests_run|].
  split; [intros x k i; apply rotl64_testbit|].
  rewrite (phit_pool_extract_run p w Hlen).
  rewrite extract_harvests_run. reflexivity.
Qed.

(** ** Forward secrecy step *)

Lemma rotl64_zero_iff x k :
  0 < k < 64 -> (phit__rotl64 x k = 0 <-> x = 0).
Proof.
  intros Hk. unfold phit__rotl64. split.
  - intros H. apply Z.lor_eq_0_iff in H. destruct H as [Hl Hr].
    rewrite Z.shiftr_div_pow2 in Hr by lia.
    rewrite Z.shiftl_mul_pow2 in Hl by lia.
    assert (Hp : 0 < 2 ^ (64 - k)) by (apply Z.pow_pos_nonneg; lia).
    assert (Hq : 0 < 2 ^ k) by (apply Z.pow_pos_nonneg; lia).
    apply Z.div_small_iff in Hr; [|lia].
    destruct Hr as [Hr|Hr]; [|lia].
    assert (Hs : 2 ^ 64 = 2 ^ (64 - k) * 2 ^ k).
    { rewrite <- Z.pow_add_r by lia. f_equal. lia. }
    unfold u64 in Hl. rewrite Z.mod_small in Hl by nia. nia.
  - intros ->. rewrite Z.shiftl_0_l, Z.shiftr_0_l. reflexivity.
Qed.

Lemma lxor_fixed_iff a b : Z.lxor a b = a <-> b = 0.
Proof.
  split.
  - intros H.
    assert (E : Z.lxor a (Z.lxor a b) = Z.lxor a a) by (rewrite H; reflexivity).
    rewrite <- Z.lxor_assoc, Z.lxor_nilpotent, Z.lxor_0_l in E. exact E.
  - intros ->. apply Z.lxor_0_r.
Qed.

(** C2. In every extraction the mutation step XORs rotl(out,7) into lane 0
    and rotl(out,23) into lane 1 of the pool the harvests left, where [out]
    is the value just returned.  Both rotations are zero exactly when [out]
    is, so whenever the output is non-zero both lanes differ from their
    values before the mutation (and when it is zero neither changes). *)
Theorem extract_forward_secrecy (p : phit_pool_t) (w : World) :
  length (pool p) = 4%nat ->
  let before := pool (fst (extract_harvests p w)) in
  let out := fst (fst (phit_pool_extract p w)) in
  let after := pool (snd (fst (phit_pool_extract p w))) in
  out = Spec.output before
  /\ lane after 0 = Z.lxor (lane before 0) (phit__rotl64 out 7)
  /\ lane after 1 = Z.lxor (lane before 1) (phit__rotl64 out 23)
  /\ (phit__rotl64 out 7 = 0 <-> out = 0)
  /\ (phit__rotl64 out 23 = 0 <-> out = 0)
  /\ (out <> 0 ->
        lane after 0 <> lane before 0 /\ lane after 1 <> lane before 1)
  /\ (out = 0 ->
        lane after 0 = lane before 0 /\ lane after 1 = lane before 1).
Proof.
  intros Hlen before out after.
  unfold out, after. rewrite (phit_pool_extract_run p w Hlen).
  cbv zeta. cbn [fst snd pool]. fold before.
  set (o := Spec.output before).
  assert (H7 : phit__rotl64 o 7 = 0 <-> o = 0) by (apply rotl64_zero_iff; lia).
  assert (H23 : phit__rotl64 o 23 = 0 <-> o = 0) by (apply rotl64_zero_iff; lia).
  unfold mutated.
  change (lane (?x :: _) 0) with x.
  change (lane (_ :: ?y :: _) 1) with y.
  repeat split; try tauto.
  - intros E. apply lxor_fixed_iff in E. tauto.
  - intros E. apply lxor_fixed_iff in E. tauto.
  - apply lxor_fixed_iff. tauto.
  - apply lxor_fixed_iff. tauto.
Qed.

(** ** The mix counter *)

Lemma mix_counter_feed p sample :
  mix_counter (phit_pool_feed p sample) = u64 (mix_counter p + 1).
Proof. reflexivity. Qed.

Lemma u64_add_u64 x k : u64 (u64 x + k) = u64 (x + k).
Proof. unfold u64. apply Z.add_mod_idemp_l. lia. Qed.

Lemma mix_counter_harvest_at t p :
  mix_counter (Spec.harvest_at t p) = u64 (mix_counter p + 2).
Proof.
  unfold Spec.harvest_at. rewrite !mix_counter_feed, u64_add_u64.
  f_equal. lia.
Qed.

Lemma mix_counter_harvest p w :
  mix_counter (fst (phit_pool_harvest p w)) = u64 (mix_counter p + 2).
Proof. rewrite phit_pool_harvest_run. apply mix_counter_harvest_at. Qed.

Lemma mix_counter_extract p w :
  mix_counter (snd (fst (phit_pool_extract p w))) = u64 (mix_counter p + 8).
Proof.
  unfold phit_pool_extract, bind, ret. rewrite extract_harvests_run.
  cbn [fst snd mix_counter].
  rewrite !mix_counter_harvest_at.
  repeat (rewrite u64_add_u64; rewrite <- ?Z.add_assoc).
  reflexivity.
Qed.

Lemma length_pool_extract p w :
  length (pool p) = 4%nat ->
  length (pool (snd (fst (phit_pool_extract p w)))) = 4%nat.
Proof.
  intros H. rewrite (phit_pool_extract_run p w H). reflexivity.
Qed.

Lemma extract_counters_sorted n : forall p w,
  0 <= mix_counter p -> mix_counter p + 8 * Z.of_nat n < 2 ^ 64 ->
  Forall (fun c => mix_counter p + 8 <= c <= mix_counter p + 8 * Z.of_nat n)
         (extract_counters n p w)
  /\ StronglySorted Z.lt (extract_counters n p w).
Proof.
  induction n as [|n IH]; intros p w H0 Hn.
  - split; constructor.
  - cbn [extract_counters].
    destruct (phit_pool_extract p w) as [[v p'] w'] eqn:E.
    assert (Hc : mix_counter p' = mix_counter p + 8).
    { pose proof (mix_counter_extract p w) as Hm. rewrite E in Hm.
      cbn [fst snd] in Hm. rewrite Hm. apply u64_small. lia. }
    destruct (IH p' w') as [Hall Hs]; [lia|lia|].
    split.
    + constructor; [lia|].
      eapply Forall_impl; [|exact Hall].
      cbv beta. intros c Hcc. lia.
    + constructor; [exact Hs|].
      eapply Forall_impl; [|exact Hall].
      cbv beta. intros c Hcc. lia.
Qed.

(** C9. Every pool operation advances the mix counter and none resets it:
    a feed adds 1, a harvest 2 and an extract 8, modulo 2^64.  As long as
    the 64-bit counter does not overflow these are the exact new values, a
    feed can leave a counter that is not larger only by wrapping at 2^64,
    and the counters that [n] successive extracts on one pool leave are
    strictly increasing, all above the counter the first one found. *)
Theorem mix_counter_strictly_increases
  (p : phit_pool_t) (w : World) (sample : Z) (n : nat) :
  0 <= mix_counter p < 2 ^ 64 ->
  mix_counter (phit_pool_feed p sample) = (mix_counter p + 1) mod 2 ^ 64
  /\ mix_counter (fst (phit_pool_harvest p w)) = (mix_counter p + 2) mod 2 ^ 64
  /\ mix_counter (snd (fst (phit_pool_extract p w))) =
       (mix_counter p + 8) mod 2 ^ 64
  /\ (mix_counter p + 1 < 2 ^ 64 ->
        mix_counter (phit_pool_feed p sample) = mix_counter p + 1)
  /\ (mix_counter p + 2 < 2 ^ 64 ->
        mix_counter (fst (phit_pool_harvest p w)) = mix_counter p + 2)
  /\ (mix_counter p + 8 < 2 ^ 64 ->
        mix_counter (snd (fst (phit_pool_extract p w))) = mix_counter p + 8)
  /\ (mix_counter (phit_pool_feed p sample) <= mix_counter p ->
        mix_counter p = 2 ^ 64 - 1 /\ mix_counter (phit_pool_feed p sample) = 0)
  /\ (mix_counter p + 8 * Z.of_nat n < 2 ^ 64 ->
        StronglySorted Z.lt (mix_counter p :: extract_counters n p w)).
Proof.
  intros Hmc.
  rewrite mix_counter_feed, mix_counter_harvest, mix_counter_extract.
  unfold u64.
  repeat split.
  - intros H. apply Z.mod_small. lia.
  - intros H. apply Z.mod_small. lia.
  - intros H. apply Z.mod_small. lia.
  - destruct (Z.eq_dec (mix_counter p) (2 ^ 64 - 1)) as [E|E]; [exact E|].
    rewrite Z.mod_small in H by lia. lia.
  - destruct (Z.eq_dec (mix_counter p) (2 ^ 64 - 1)) as [E|E].
    + rewrite E. reflexivity.
    + rewrite Z.mod_small in H by lia. lia.
  - intros H.
    destruct (extract_counters_sorted n p w) as [Hall Hs]; [lia|lia|].
    constructor; [exact Hs|].
    eapply Forall_impl; [|exact Hall].
    cbv beta. intros c Hc. lia.
Qed.

(** ** Compound sampling *)

Lemma reads_succ w n x :
  reads w (S n) = u64 (clock w (ticks w)) :: reads (after_reads w 1 x) n.
Proof.
  unfold reads. cbn [seq map]. rewrite Nat.add_0_r. f_equal.
  rewrite <- seq_shift, map_map. apply map_ext.
  intros j. rewrite after_reads_clock, after_reads_ticks.
  f_equal. f_equal. lia.
Qed.

Lemma u32_add_u32 a b : u32 (a + u32 b) = (a + b) mod 2 ^ 32.
Proof. unfold u32. apply Z.add_mod_idemp_r. lia. Qed.

Lemma compound_body_run i key w :
  compound_body i key w =
  (Spec.rotl32
     (Z.lxor key
        (Spec.avalanche32
           ((sample_key (u64 (clock w (ticks w))) (compound_workload i) + i)
              mod 2 ^ 32))) 7,
   after_reads w 1 (compound_workload i)).
Proof.
  unfold compound_body, bind, write_sink, phit_now_ns, ret, after_reads.
  cbn [clock ticks phit__sink]. cbv zeta.
  rewrite Nat.add_1_r. f_equal.
  unfold Spec.rotl32.
  rewrite Z.shiftl_mul_pow2, Z.shiftr_div_pow2 by lia.
  rewrite phit_hash32_avalanche32, !u32_add_u32.
  reflexivity.
Qed.

Lemma compound_loop_value n : forall i key w,
  fst (for_from n i compound_body key w) =
  Spec.compound_fold Spec.avalanche32 i (reads w n) key.
Proof.
  induction n as [|n IH]; intros i key w.
  - reflexivity.
  - cbn [for_from]. unfold bind. rewrite compound_body_run.
    rewrite IH, (reads_succ w n (compound_workload i)). reflexivity.
Qed.

Lemma compound_loop_world n : forall i key w,
  snd (for_from (S n) i compound_body key w) =
  after_reads w (S n) (compound_workload (i + Z.of_nat n)).
Proof.
  induction n as [|n IH]; intros i key w.
  - cbn [for_from]. unfold bind, ret. rewrite compound_body_run.
    cbn [snd]. rewrite Z.add_0_r. reflexivity.
  - change (for_from (S (S n)) i compound_body key w)
      with (bind (compound_body i key)
              (fun s' => for_from (S n) (i + 1) compound_body s') w).
    unfold bind. rewrite compound_body_run, IH, after_reads_twice.
    f_equal. f_equal. lia.
Qed.

Lemma phit_sample_compound_run n w :
  1 <= n ->
  phit_sample_compound n w =
  (Spec.compound_hashed (reads w (Z.to_nat n)),
   after_reads w (Z.to_nat n) (compound_workload (n - 1))).
Proof.
  intros Hn. unfold phit_sample_compound, for_loop, bind, ret.
  rewrite Z.sub_0_r.
  destruct (Z.to_nat n) as [|m] eqn:E; [lia|].
  pose proof (compound_loop_value (S m) 0 0 w) as Hv.
  pose proof (compound_loop_world m 0 0 w) as Hw.
  destruct (for_from (S m) 0 compound_body 0 w) as [key w'].
  cbn [fst snd] in Hv, Hw. subst key w'.
  unfold Spec.compound_hashed. rewrite phit_hash32_avalanche32.
  f_equal. f_equal. f_equal. lia.
Qed.

Lemma phit_sample_compound_none n w :
  n <= 0 -> phit_sample_compound n w = (0, w).
Proof.
  intros Hn. unfold phit_sample_compound, for_loop, bind, ret.
  replace (Z.to_nat (n - 0)) with 0%nat by lia. reflexivity.
Qed.

Lemma testbit_3 i : 0 <= i -> Z.testbit 3 i = (i <? 2).
Proof.
  intros Hi. change 3 with (Z.ones 2).
  apply Z.testbit_ones_nonneg; lia.
Qed.

Lemma sample_key_bits t x i :
  0 <= i < 32 ->
  Z.testbit (sample_key t x) i =
  if i <? 2 then Z.testbit t i
  else xorb (Z.testbit t i) (Z.testbit x (i - 2)).
Proof.
  intros Hi. unfold sample_key, u32.
  rewrite Z.mod_pow2_bits_low by lia.
  rewrite Z.lor_spec, Z.land_spec, testbit_3 by lia.
  rewrite Z.mod_pow2_bits_low by lia.
  destruct (i <? 2) eqn:E.
  - apply Z.ltb_lt in E.
    rewrite Z.shiftl_spec_low by lia.
    rewrite andb_true_r, orb_false_r. reflexivity.
  - apply Z.ltb_ge in E.
    rewrite Z.shiftl_spec by lia.
    rewrite Z.lxor_spec, !Z.mod_pow2_bits_low by lia.
    rewrite Z.shiftr_spec by lia.
    rewrite andb_false_r, orb_false_l.
    replace (i - 2 + 2) with i by lia. reflexivity.
Qed.

(** C7 (amended). For every N >= 1, [phit_sample_compound N] makes N
    folds over the N timer values it reads: fold [i] runs the workload
    seeded with 0xDEADBEEF XOR (i times the odd constant), reads the timer,
    builds the 32-bit key (bits 0-1 are those of [t], bit [j >= 2] is bit
    [j] of [t] XOR bit [j-2] of the workload value), XORs the avalanche
    hash of key + i (modulo 2^32) into the accumulator and rotates the
    accumulator left by 7; after the N folds the avalanche hash is applied
    once more, and that hash is returned.  N timer reads are made. *)
Theorem compound_sample_fold (n : Z) (w : World) :
  1 <= n ->
  phit_sample_compound n w =
    (Spec.compound_hashed (reads w (Z.to_nat n)),
     after_reads w (Z.to_nat n) (compound_workload (n - 1)))
  /\ (forall t x i, 0 <= i < 32 ->
        Z.testbit (sample_key t x) i =
        if i <? 2 then Z.testbit t i
        else xorb (Z.testbit t i) (Z.testbit x (i - 2)))
  /\ (forall t x, 0 <= sample_key t x < 2 ^ 32)
  /\ (forall i, compound_workload i =
        Nat.iter 10 lcg (Z.lxor 0xDEADBEEF ((i mod 2 ^ 64 * GOLDEN) mod 2 ^ 64)))
  /\ Z.odd GOLDEN = true.
Proof.
  intros Hn.
  split; [apply phit_sample_compound_run; exact Hn|].
  split; [apply sample_key_bits|].
  split; [intros t x; apply u32_range|].
  split; reflexivity.
Qed.

(** C7 (as claimed) fails: with one read of a timer at 0, the value
    returned is not the hash of the fold that XORs the unhashed key. *)
Lemma compound_claimed_counterexample :
  ~ (forall n w, 1 <= n ->
       fst (phit_sample_compound n w) =
       Spec.compound_claimed (reads w (Z.to_nat n))).
Proof.
  intros H. specialize (H 1 world0 ltac:(lia)).
  vm_compute in H. discriminate H.
Qed.

(** C6 (amended). A call with N <= 0 is not rejected: the loop body never
    runs, no timer read is made, the world is unchanged and the value
    returned is the avalanche hash of the empty accumulator, which is 0. *)
Theorem compound_sample_zero_reads (n : Z) (w : World) :
  n <= 0 ->
  phit_sample_compound n w = (Spec.avalanche32 0, w)
  /\ Spec.avalanche32 0 = 0
  /\ ~ rejects (call (phit_sample_compound n) w).
Proof.
  intros Hn. rewrite (phit_sample_compound_none n w Hn).
  split; [reflexivity|]. split; [reflexivity|].
  unfold rejects, call. discriminate.
Qed.

(** C6 (as claimed) fails: the call with N = 0 returns 0. *)
Lemma compound_zero_counterexample :
  ~ rejects (call (phit_sample_compound 0) world0)
  /\ phit_sample_compound 0 world0 = (0, world0).
Proof.
  split; [unfold rejects, call; discriminate|reflexivity].
Qed.

(** ** Router and bounded draw *)

Lemma u32_small x : 0 <= x < 2 ^ 32 -> u32 x = x.
Proof. intros H. unfold u32. apply Z.mod_small. exact H. Qed.

Lemma phit_route_run k w :
  0 < k <= INT_MAX ->
  phit_route k w =
  Returns (fst (phit_sample_compound 2 w) mod k,
           snd (phit_sample_compound 2 w)).
Proof.
  intros Hk. unfold INT_MAX in Hk. unfold phit_route.
  destruct (phit_sample_compound 2 w) as [s w'].
  cbn [fst snd]. unfold umod.
  rewrite u32_small by lia.
  destruct (k =? 0) eqn:E; [apply Z.eqb_eq in E; lia|].
  cbn [obind].
  pose proof (Z.mod_pos_bound s k ltac:(lia)).
  rewrite int32_small by lia. reflexivity.
Qed.

(** C5. For every number of destinations [k > 0] (an [int]), [phit_route k]
    returns: the value is the compound sample of two reads taken modulo
    [k], it is non-negative and strictly below [k], and the world is the
    one the compound sample left (two timer reads). *)
Theorem route_domain_validity (k : Z) (w : World) :
  0 < k <= INT_MAX ->
  exists r,
    phit_route k w = Returns (r, snd (phit_sample_compound 2 w))
    /\ r = fst (phit_sample_compound 2 w) mod k
    /\ 0 <= r < k
    /\ phit_sample_compound 2 w =
         (Spec.compound_hashed (reads w 2),
          after_reads w 2 (compound_workload 1)).
Proof.
  intros Hk. exists (fst (phit_sample_compound 2 w) mod k).
  split; [apply phit_route_run; exact Hk|].
  split; [reflexivity|].
  split; [apply Z.mod_pos_bound; lia|].
  exact (phit_sample_compound_run 2 w ltac:(lia)).
Qed.

Lemma phit_prng_range_zero rng w : phit_prng_range rng 0 w = (0, rng, w).
Proof. reflexivity. Qed.

(** C4 (amended). [phit_prng_range] with [max = 0] does not fail: its
    guard returns 0 at once, no value is drawn, and the generator and the
    world are left as they were.  With [max > 0] it draws one value and
    returns it modulo [max].  No call of it signals a failure. *)
Theorem range_zero_guard (rng : phit_prng_t) (w : World) :
  phit_prng_range rng 0 w = (0, rng, w)
  /\ (forall max, 0 < max < 2 ^ 32 ->
        exists v rng' w',
          phit_prng_u64 rng w = (v, rng', w')
          /\ phit_prng_range rng max w = (v mod max, rng', w')
          /\ 0 <= v mod max < max)
  /\ (forall max, ~ rejects (call (phit_prng_range rng max) w)).
Proof.
  split; [apply phit_prng_range_zero|]. split.
  - intros max Hmax. unfold phit_prng_range, bind, ret.
    destruct (max =? 0) eqn:E; [apply Z.eqb_eq in E; lia|].
    destruct (phit_prng_u64 rng w) as [[v rng'] w'].
    exists v, rng', w'. cbn [fst snd].
    pose proof (Z.mod_pos_bound v max ltac:(lia)) as Hb.
    rewrite u32_small by lia.
    split; [reflexivity|]. split; [reflexivity|exact Hb].
  - intros max. unfold rejects, call. discriminate.
Qed.

(** C4 (as claimed) fails: [phit_prng_range] at 0 returns 0 and signals
    nothing, and [phit_route] at 0 reaches a remainder by zero, which is
    undefined behaviour and no signalled failure either. *)
Lemma contract_violations_counterexample :
  ~ (rejects (phit_route 0 world0)
     /\ rejects (call (phit_prng_range rng0 0) world0))
  /\ phit_prng_range rng0 0 world0 = (0, rng0, world0)
  /\ phit_route 0 world0 = Undefined.
Proof.
  split; [|split].
  - intros [_ H]. unfold rejects, call in H. discriminate H.
  - reflexivity.
  - vm_compute. reflexivity.
Qed.

(** ** Filling a buffer *)

Lemma length_le_bytes n : forall v, length (le_bytes n v) = n.
Proof.
  induction n as [|n IH]; intros v; cbn [le_bytes length]; [reflexivity|].
  rewrite IH. reflexivity.
Qed.

Lemma memcpy_in_bounds buf p src n :
  (p + n <= length buf)%nat ->
  memcpy buf p src n =
  Returns (firstn p buf ++ firstn n src ++ skipn (p + n) buf).
Proof.
  intros H. unfold memcpy.
  destruct (p + n <=? length buf)%nat eqn:E; [reflexivity|].
  apply Nat.leb_gt in E. lia.
Qed.

Section Splice.
Variables (buf src : list Z) (p : nat).
Hypothesis in_bounds : (p + length src <= length buf)%nat.

Lemma splice_length :
  length (firstn p buf ++ src ++ skipn (p + length src) buf) = length buf.
Proof.
  rewrite !length_app, length_firstn, length_skipn. lia.
Qed.

Lemma splice_firstn :
  firstn (p + length src)
         (firstn p buf ++ src ++ skipn (p + length src) buf) =
  firstn p buf ++ src.
Proof.
  rewrite app_assoc.
  assert (E : (p + length src)%nat = length (firstn p buf ++ src)).
  { rewrite length_app, length_firstn. lia. }
  rewrite E at 1. rewrite firstn_app, firstn_all, Nat.sub_diag.
  cbn [firstn]. apply app_nil_r.
Qed.

Lemma splice_skipn m :
  skipn (p + length src + m)
        (firstn p buf ++ src ++ skipn (p + length src) buf) =
  skipn (p + length src + m) buf.
Proof.
  rewrite app_assoc, skipn_app.
  assert (E : length (firstn p buf ++ src) = (p + length src)%nat).
  { rewrite length_app, length_firstn. lia. }
  rewrite skipn_all2 by lia. rewrite E, skipn_skipn. cbn [app].
  f_equal. lia.
Qed.
End Splice.

Lemma draws_succ k rng w v rng1 w1 vs rng2 w2 :
  phit_prng_u64 rng w = (v, rng1, w1) ->
  draws k rng1 w1 = (vs, rng2, w2) ->
  draws (S k) rng w = (v :: vs, rng2, w2).
Proof.
  intros E1 E2. cbn [draws]. rewrite E1, E2. reflexivity.
Qed.

Lemma draws_snoc k : forall rng w vs rng1 w1 v rng2 w2,
  draws k rng w = (vs, rng1, w1) ->
  phit_prng_u64 rng1 w1 = (v, rng2, w2) ->
  draws (k + 1) rng w = (vs ++ [v], rng2, w2).
Proof.
  induction k as [|k IH]; intros rng w vs rng1 w1 v rng2 w2 E1 E2.
  - cbn [draws] in E1. injection E1 as <- <- <-.
    apply (draws_succ 0 rng w v rng2 w2 [] rng2 w2 E2). reflexivity.
  - cbn [draws] in E1.
    destruct (phit_prng_u64 rng w) as [[v0 rng0'] w0'] eqn:E0.
    destruct (draws k rng0' w0') as [[vs0 rng0''] w0''] eqn:E0'.
    injection E1 as <- <- <-.
    apply (draws_succ (k + 1) rng w v0 rng0' w0' (vs0 ++ [v]) rng2 w2 E0).
    apply (IH rng0' w0' vs0 rng0'' w0'' v rng2 w2 E0' E2).
Qed.

Lemma draws_length k : forall rng w vs rng1 w1,
  draws k rng w = (vs, rng1, w1) -> length vs = k.
Proof.
  induction k as [|k IH]; intros rng w vs rng1 w1 E; cbn [draws] in E.
  - injection E as <- _ _. reflexivity.
  - destruct (phit_prng_u64 rng w) as [[v0 rng0'] w0'].
    destruct (draws k rng0' w0') as [[vs0 rng0''] w0''] eqn:E0.
    injection E as <- _ _. cbn [length]. f_equal.
    apply (IH _ _ _ _ _ E0).
Qed.

Lemma length_chunks vs :
  length (flat_map (le_bytes 8) vs) = (8 * length vs)%nat.
Proof.
  induction vs as [|v vs IH]; [reflexivity|].
  cbn [flat_map]. rewrite length_app, length_le_bytes, IH.
  cbn [length]. lia.
Qed.

Lemma phit_prng_u64_generated rng w v rng1 w1 :
  phit_prng_u64 rng w = (v, rng1, w1) ->
  generated rng1 = u64 (generated rng + 1).
Proof.
  unfold phit_prng_u64, bind, ret.
  destruct (phit_pool_extract (prng_pool rng) w) as [[o p'] w'].
  cbn [fst snd]. intros E. injection E as _ <- _. reflexivity.
Qed.

Lemma draws_generated k : forall rng w vs rng1 w1,
  draws k rng w = (vs, rng1, w1) ->
  u64 (generated rng1) = u64 (generated rng + Z.of_nat k).
Proof.
  induction k as [|k IH]; intros rng w vs rng1 w1 E; cbn [draws] in E.
  - injection E as _ <- _. rewrite Z.add_0_r. reflexivity.
  - destruct (phit_prng_u64 rng w) as [[v0 rng0'] w0'] eqn:E0.
    destruct (draws k rng0' w0') as [[vs0 rng0''] w0''] eqn:E1.
    injection E as _ <- _.
    rewrite (IH _ _ _ _ _ E1), (phit_prng_u64_generated _ _ _ _ _ E0).
    rewrite u64_add_u64. f_equal. lia.
Qed.

Opaque phit_prng_u64 memcpy le_bytes draws.

Lemma fill_while_run rng buf p len w :
  forall vs rng1 w1,
  (p + Z.to_nat len <= length buf)%nat ->
  draws (Z.to_nat (len / 8)) rng w = (vs, rng1, w1) ->
  fill_while rng buf p len w =
  Returns (rng1,
           firstn p buf ++ flat_map (le_bytes 8) vs
             ++ skipn (p + 8 * Z.to_nat (len / 8)) buf,
           (p + 8 * Z.to_nat (len / 8))%nat,
           len - 8 * Z.of_nat (Z.to_nat (len / 8)), w1).
Proof.
  funelim (fill_while rng buf p len w); intros vs rng1 w1 Hb Hd.
  - assert (E : Z.to_nat (len / 8) = 0%nat).
    { assert (len / 8 < 1) by (apply Z.div_lt_upper_bound; lia). lia. }
    rewrite E in *. Transparent draws. cbn [draws] in Hd. Opaque draws.
    injection Hd as <- <- <-. cbn [flat_map app].
    rewrite Nat.mul_0_r, Nat.add_0_r, firstn_skipn, Z.sub_0_r. reflexivity.
  - assert (Hq : Z.to_nat (len / 8) = S (Z.to_nat ((len - 8) / 8))).
    { replace len with (len - 8 + 1 * 8) at 1 by lia.
      rewrite Z.div_add by lia.
      assert (0 <= (len - 8) / 8) by (apply Z.div_pos; lia). lia. }
    rewrite Hq in *.
    Transparent draws. cbn [draws] in Hd. Opaque draws.
    rewrite Heq0 in Hd.
    destruct (draws (Z.to_nat ((len - 8) / 8)) rng' w') as [[vs' rng2] w2] eqn:Ed.
    injection Hd as <- <- <-.
    pose proof (length_le_bytes 8 v) as Hs.
    rewrite memcpy_in_bounds in Heq by lia.
    rewrite (firstn_all2 (n := 8) (le_bytes 8 v)) in Heq by lia.
    injection Heq as <-.
    assert (Hin : (p + length (le_bytes 8 v) <= length buf)%nat) by lia.
    pose proof (splice_length buf (le_bytes 8 v) p Hin) as Hl.
    pose proof (splice_firstn buf (le_bytes 8 v) p Hin) as Hf.
    pose proof (splice_skipn buf (le_bytes 8 v) p Hin
                  (8 * Z.to_nat ((len - 8) / 8))) as Hk.
    rewrite Hs in Hl, Hf, Hk.
    rewrite (H vs' rng2 w2) by (try reflexivity; lia).
    rewrite Hf, Hk. cbn [flat_map]. rewrite <- !app_assoc.
    replace (p + 8 * S (Z.to_nat ((len - 8) / 8)))%nat
      with (p + 8 + 8 * Z.to_nat ((len - 8) / 8))%nat by lia.
    replace (len - 8 * Z.of_nat (S (Z.to_nat ((len - 8) / 8))))
      with (len - 8 - 8 * Z.of_nat (Z.to_nat ((len - 8) / 8))) by lia.
    reflexivity.
  - rewrite memcpy_in_bounds in Heq by lia. discriminate Heq.
  - rewrite memcpy_in_bounds in Heq by lia. discriminate Heq.
Qed.

Transparent phit_prng_u64 memcpy le_bytes draws.

Lemma firstn_chunks q : forall r vs,
  (r < 8)%nat -> (8 * q + r <= 8 * length vs)%nat ->
  firstn (8 * q + r) (flat_map (le_bytes 8) vs) =
  flat_map (le_bytes 8) (firstn q vs)
    ++ firstn r (le_bytes 8 (nth q vs 0)).
Proof.
  induction q as [|q IH]; intros r vs Hr Hb.
  - destruct vs as [|v vs].
    + cbn [length] in Hb. replace r with 0%nat by lia. reflexivity.
    + cbn [flat_map firstn nth app Nat.mul Nat.add].
      rewrite firstn_app, length_le_bytes.
      replace (r - 8)%nat with 0%nat by lia.
      cbn [firstn]. apply app_nil_r.
  - destruct vs as [|v vs]; [cbn [length] in Hb; lia|].
    cbn [length] in Hb. cbn [flat_map firstn nth].
    replace (8 * S q + r)%nat with (8 + (8 * q + r))%nat by lia.
    rewrite firstn_app, length_le_bytes.
    rewrite (firstn_all2 (n := (8 + (8 * q + r))%nat))
      by (rewrite length_le_bytes; lia).
    replace (8 + (8 * q + r) - 8)%nat with (8 * q + r)%nat by lia.
    rewrite IH by lia. rewrite <- app_assoc. reflexivity.
Qed.

Lemma ceil_div_8 n :
  0 <= n ->
  (n mod 8 = 0 /\ (n + 7) / 8 = n / 8)
  \/ (0 < n mod 8 < 8 /\ (n + 7) / 8 = n / 8 + 1).
Proof.
  intros Hn.
  pose proof (Z.div_mod n 8 ltac:(lia)) as Hd.
  pose proof (Z.mod_pos_bound n 8 ltac:(lia)) as Hm.
  destruct (Z.eq_dec (n mod 8) 0) as [E|E]; [left|right]; split; try lia.
  - symmetry. apply (Z.div_unique (n + 7) 8 (n / 8) 7); lia.
  - symmetry. apply (Z.div_unique (n + 7) 8 (n / 8 + 1) (n mod 8 - 1)); lia.
Qed.

Lemma phit_prng_fill_run rng buf n w vs rng1 w1 :
  0 <= n -> (Z.to_nat n <= length buf)%nat ->
  draws (Z.to_nat ((n + 7) / 8)) rng w = (vs, rng1, w1) ->
  phit_prng_fill rng buf n w =
  Returns (rng1,
           firstn (Z.to_nat n) (flat_map (le_bytes 8) vs)
             ++ skipn (Z.to_nat n) buf,
           w1).
Proof.
  intros Hn Hb Hd. unfold phit_prng_fill.
  assert (Hq0 : 0 <= n / 8) by (apply Z.div_pos; lia).
  pose proof (Z.div_mod n 8 ltac:(lia)) as Hdm.
  destruct (draws (Z.to_nat (n / 8)) rng w) as [[vs0 rng0'] w0'] eqn:E0.
  rewrite (fill_while_run rng buf 0 n w vs0 rng0' w0') by (try exact E0; lia).
  cbn [obind]. cbv beta iota. cbn [firstn app Nat.add].
  pose proof (draws_length _ _ _ _ _ _ E0) as Hl0.
  pose proof (length_chunks vs0) as Hc0.
  destruct (ceil_div_8 n Hn) as [[Hr Hk]|[Hr Hk]].
  - rewrite Hk, E0 in Hd. injection Hd as <- <- <-.
    replace (n - 8 * Z.of_nat (Z.to_nat (n / 8))) with 0 by lia.
    cbn [Z.ltb Z.compare].
    replace (8 * Z.to_nat (n / 8))%nat with (Z.to_nat n) by lia.
    rewrite firstn_all2 by lia. reflexivity.
  - replace (Z.to_nat (n / 8 + 1)) with (Z.to_nat (n / 8) + 1)%nat in Hk by lia.
    destruct (phit_prng_u64 rng0' w0') as [[v rng2] w2] eqn:Eu.
    rewrite Hk in Hd.
    replace (Z.to_nat (n / 8 + 1)) with (Z.to_nat (n / 8) + 1)%nat in Hd by lia.
    rewrite (draws_snoc _ _ _ _ _ _ _ _ _ E0 Eu) in Hd.
    injection Hd as <- <- <-.
    destruct (0 <? n - 8 * Z.of_nat (Z.to_nat (n / 8))) eqn:Ep;
      [|apply Z.ltb_ge in Ep; lia].
    set (q := Z.to_nat (n / 8)) in *.
    set (r := Z.to_nat (n - 8 * Z.of_nat q)).
    assert (Hnr : Z.to_nat n = (8 * q + r)%nat) by (unfold r, q; lia).
    rewrite memcpy_in_bounds
      by (rewrite length_app, length_skipn; lia).
    cbn [obind].
    rewrite Hnr, flat_map_app. cbn [flat_map]. rewrite app_nil_r.
    rewrite !firstn_app, !skipn_app, Hc0, Hl0.
    rewrite (firstn_all2 (n := (8 * q)%nat)) by lia.
    rewrite (firstn_all2 (n := (8 * q + r)%nat) (flat_map (le_bytes 8) vs0)) by lia.
    rewrite (skipn_all2 (n := (8 * q + r)%nat)) by lia.
    replace (8 * q - 8 * q)%nat with 0%nat by lia.
    replace (8 * q + r - 8 * q)%nat with r by lia.
    cbn [firstn app]. rewrite skipn_skipn.
    replace (r + 8 * q)%nat with (8 * q + r)%nat by lia.
    cbn [app]. rewrite <- ?app_assoc. reflexivity.
Qed.

(** C10. For every length [n >= 0] within the buffer, [phit_prng_fill]
    returns, having drawn exactly [k = ceil(n/8)] values from
    [phit_prng_u64] (the generated counter advances by [k]); the first [n]
    bytes of the buffer are the first [n] bytes of the 8-byte images of
    those values in order, that is the whole images of the first [n / 8]
    values followed, when [n] is not a multiple of 8, by the first
    [n mod 8] bytes of the image of the last one; the buffer keeps its
    length and every byte at offset [n] and beyond keeps its value. *)
Theorem fill_writes_exactly
  (rng : phit_prng_t) (buf : list Z) (n : Z) (w : World) :
  0 <= n -> (Z.to_nat n <= length buf)%nat ->
  exists k vs rng' w' buf',
    n <= 8 * Z.of_nat k < n + 8
    /\ draws k rng w = (vs, rng', w')
    /\ length vs = k
    /\ phit_prng_fill rng buf n w = Returns (rng', buf', w')
    /\ length buf' = length buf
    /\ firstn (Z.to_nat n) buf' =
         firstn (Z.to_nat n) (flat_map (le_bytes 8) vs)
    /\ firstn (Z.to_nat n) buf' =
         flat_map (le_bytes 8) (firstn (Z.to_nat (n / 8)) vs)
           ++ firstn (Z.to_nat (n mod 8))
                     (le_bytes 8 (nth (Z.to_nat (n / 8)) vs 0))
    /\ length (firstn (Z.to_nat n) buf') = Z.to_nat n
    /\ skipn (Z.to_nat n) buf' = skipn (Z.to_nat n) buf
    /\ (forall i, (Z.to_nat n <= i)%nat -> nth i buf' 0 = nth i buf 0)
    /\ u64 (generated rng') = u64 (generated rng + Z.of_nat k).
Proof.
  intros Hn Hb.
  set (k := Z.to_nat ((n + 7) / 8)).
  destruct (draws k rng w) as [[vs rng'] w'] eqn:Ed.
  exists k, vs, rng', w'.
  exists (firstn (Z.to_nat n) (flat_map (le_bytes 8) vs)
            ++ skipn (Z.to_nat n) buf).
  pose proof (draws_length _ _ _ _ _ _ Ed) as Hl.
  pose proof (length_chunks vs) as Hc.
  assert (Hk : n <= 8 * Z.of_nat k < n + 8).
  { unfold k. pose proof (Z.div_mod n 8 ltac:(lia)).
    assert (0 <= n / 8) by (apply Z.div_pos; lia).
    destruct (ceil_div_8 n Hn) as [[Hr E]|[Hr E]]; rewrite E; lia. }
  assert (Hf : length (firstn (Z.to_nat n) (flat_map (le_bytes 8) vs))
               = Z.to_nat n).
  { rewrite length_firstn. lia. }
  split; [exact Hk|]. split; [exact Ed|]. split; [exact Hl|].
  split; [apply phit_prng_fill_run; assumption|].
  split; [rewrite length_app, length_skipn; lia|].
  assert (Hfirst : firstn (Z.to_nat n)
                     (firstn (Z.to_nat n) (flat_map (le_bytes 8) vs)
                        ++ skipn (Z.to_nat n) buf) =
                   firstn (Z.to_nat n) (flat_map (le_bytes 8) vs)).
  { rewrite firstn_app, Hf, Nat.sub_diag. cbn [firstn].
    rewrite app_nil_r. apply firstn_all2. lia. }
  split; [exact Hfirst|].
  split.
  { rewrite Hfirst.
    pose proof (Z.div_mod n 8 ltac:(lia)) as Hdm.
    pose proof (Z.mod_pos_bound n 8 ltac:(lia)) as Hm.
    assert (0 <= n / 8) by (apply Z.div_pos; lia).
    replace (Z.to_nat n)
      with (8 * Z.to_nat (n / 8) + Z.to_nat (n mod 8))%nat at 1 by lia.
    apply firstn_chunks; lia. }
  split; [rewrite Hfirst; exact Hf|].
  split.
  { rewrite skipn_app, Hf, Nat.sub_diag, skipn_all2 by lia. reflexivity. }
  split.
  { intros i Hi. rewrite app_nth2 by lia. rewrite Hf, nth_skipn.
    f_equal. lia. }
  apply (draws_generated _ _ _ _ _ _ Ed).
Qed.

(** ** Instances at concrete inputs *)

Lemma hash_primitives_bit_exact_witness :
  42 = 42 /\ phit_hash32 42 = phit_hash32 42 /\ phit_hash64 42 = phit_hash64 42.
Proof.
  split; [reflexivity|].
  exact (proj1 (proj2 (proj2 (proj2 (proj2 hash_primitives_bit_exact))))
           42 42 eq_refl).
Defined.

Lemma feed_contract_witness :
  length (pool phit_pool_init) = 4%nat
  /\ mix_counter (phit_pool_feed phit_pool_init 1) =
       (mix_counter phit_pool_init + 1) mod 2 ^ 64.
Proof.
  split; [reflexivity|].
  pose proof (feed_contract phit_pool_init 1 ltac:(reflexivity)) as H.
  cbv zeta in H. exact (proj1 H).
Defined.

Lemma extract_contract_witness :
  length (pool phit_pool_init) = 4%nat
  /\ forall q v, phit_pool_harvest q v =
       (phit_pool_feed (phit_pool_feed q (u64 (clock v (ticks v))))
          (Z.lxor (u64 (clock v (ticks v))) harvest_workload),
        mkWorld (clock v) (ticks v + 1) harvest_workload).
Proof.
  split; [reflexivity|].
  pose proof (extract_contract phit_pool_init world0 ltac:(reflexivity)) as H.
  cbv zeta in H. exact (proj1 H).
Defined.

Lemma extract_forward_secrecy_witness :
  length (pool phit_pool_init) = 4%nat
  /\ fst (fst (phit_pool_extract phit_pool_init world0)) =
       Spec.output (pool (fst (extract_harvests phit_pool_init world0))).
Proof.
  split; [reflexivity|].
  pose proof (extract_forward_secrecy phit_pool_init world0
                ltac:(reflexivity)) as H.
  cbv zeta in H. exact (proj1 H).
Defined.

Lemma mix_counter_strictly_increases_witness :
  0 <= mix_counter phit_pool_init < 2 ^ 64
  /\ mix_counter (phit_pool_feed phit_pool_init 1) =
       (mix_counter phit_pool_init + 1) mod 2 ^ 64.
Proof.
  split; [simpl; lia|].
  exact (proj1 (mix_counter_strictly_increases phit_pool_init world0 1 3
                  ltac:(simpl; lia))).
Defined.

Lemma compound_sample_fold_witness :
  1 <= 2
  /\ phit_sample_compound 2 world0 =
       (Spec.compound_hashed (reads world0 (Z.to_nat 2)),
        after_reads world0 (Z.to_nat 2) (compound_workload (2 - 1))).
Proof.
  split; [lia|].
  exact (proj1 (compound_sample_fold 2 world0 ltac:(lia))).
Defined.

Lemma compound_sample_zero_reads_witness :
  0 <= 0
  /\ phit_sample_compound 0 world0 = (Spec.avalanche32 0, world0).
Proof.
  split; [lia|].
  exact (proj1 (compound_sample_zero_reads 0 world0 ltac:(lia))).
Defined.

Lemma route_domain_validity_witness :
  0 < 8 <= INT_MAX
  /\ exists r,
       phit_route 8 world0 = Returns (r, snd (phit_sample_compound 2 world0))
       /\ 0 <= r < 8.
Proof.
  split; [unfold INT_MAX; lia|].
  destruct (route_domain_validity 8 world0 ltac:(unfold INT_MAX; lia))
    as (r & Hr & _ & Hb & _).
  exists r. split; [exact Hr|exact Hb].
Defined.

Lemma range_zero_guard_witness :
  phit_prng_range rng0 0 world0 = (0, rng0, world0).
Proof.
  exact (proj1 (range_zero_guard rng0 world0)).
Defined.

Lemma fill_writes_exactly_witness :
  0 <= 3 /\ (Z.to_nat 3 <= length [1; 2; 3; 4; 5])%nat
  /\ exists rng' buf' w',
       phit_prng_fill rng0 [1; 2; 3; 4; 5] 3 world0 = Returns (rng', buf', w')
       /\ length buf' = 5%nat
       /\ skipn 3 buf' = [4; 5].
Proof.
  split; [lia|]. split; [simpl; lia|].
  destruct (fill_writes_exactly rng0 [1; 2; 3; 4; 5] 3 world0
              ltac:(lia) ltac:(simpl; lia))
    as (k & vs & rng' & w' & buf' & _ & _ & _ & Hf & Hl & _ & _ & _ & Hs & _).
  exists rng', buf', w'.
  split; [exact Hf|]. split; [exact Hl|exact Hs].
Defined.

(** * Further properties of the code *)

(** ** The pool stays well formed *)

Lemma Forall_store (P : Z -> Prop) a i v :
  Forall P a -> P v -> Forall P (store a i v).
Proof.
  unfold store. generalize (Z.to_nat i) as n.
  induction a as [|h t IH]; intros n Ha Hv; [destruct n; constructor|].
  inversion Ha as [|? ? Hh Ht]; subst.
  destruct n as [|n]; cbn [store_nat]; constructor; auto.
Qed.

Lemma Forall_lane (P : Z -> Prop) a i :
  Forall P a -> P 0 -> P (lane a i).
Proof.
  intros Ha H0. unfold lane.
  destruct (nth_in_or_default (Z.to_nat i) a 0) as [Hin|E].
  - rewrite Forall_forall in Ha. apply Ha. exact Hin.
  - rewrite E. exact H0.
Qed.

Lemma is_u64_0 : is_u64 0.
Proof. unfold is_u64. lia. Qed.

Lemma is_u64_lxor a b : is_u64 a -> is_u64 b -> is_u64 (Z.lxor a b).
Proof. unfold is_u64. intros Ha Hb. apply lxor_range; [lia|exact Ha|exact Hb]. Qed.

Lemma is_u64_rotl x k : is_u64 x -> 0 < k < 64 -> is_u64 (phit__rotl64 x k).
Proof. unfold is_u64. intros Hx Hk. apply rotl64_range; assumption. Qed.

Lemma int32_range x : - 2 ^ 31 <= int32 x < 2 ^ 31.
Proof.
  unfold int32. pose proof (Z.mod_pos_bound (x + 2 ^ 31) (2 ^ 32) ltac:(lia)).
  lia.
Qed.

Lemma pool_wf_mk a mc b :
  length a = 4%nat -> Forall is_u64 a -> is_u64 mc ->
  - 2 ^ 31 <= b < 2 ^ 31 -> pool_wf (mkPool a mc b).
Proof. intros H1 H2 H3 H4. exact (conj H1 (conj H2 (conj H3 H4))). Qed.

Lemma phit_pool_feed_wf p sample :
  pool_wf p -> pool_wf (phit_pool_feed p sample).
Proof.
  intros (Hlen & Hall & Hmc & Hb).
  rewrite phit_pool_feed_spec. unfold pool_wf. cbn [pool mix_counter bits_collected].
  unfold Spec.feed_lanes. cbv zeta.
  set (z := Spec.mix64 _).
  assert (Hz : is_u64 z).
  { unfold z. rewrite <- phit_hash64_mix64. apply phit_hash64_range. }
  clearbody z.
  set (slot := Spec.feed_counter p mod Spec.L).
  set (next := (slot + 1) mod Spec.L).
  set (a1 := store (pool p) slot (Z.lxor (lane (pool p) slot) z)).
  assert (H1 : Forall is_u64 a1).
  { apply Forall_store; [exact Hall|].
    apply is_u64_lxor; [|exact Hz].
    apply Forall_lane; [exact Hall|apply is_u64_0]. }
  split; [unfold a1; rewrite !length_store; exact Hlen|].
  split.
  - apply Forall_store; [exact H1|].
    apply is_u64_lxor.
    + apply Forall_lane; [exact H1|apply is_u64_0].
    + apply is_u64_rotl; [|lia].
      apply Forall_lane; [exact H1|apply is_u64_0].
  - split; [apply u64_range|apply int32_range].
Qed.

Lemma harvest_at_wf t p : pool_wf p -> pool_wf (Spec.harvest_at t p).
Proof.
  intros H. unfold Spec.harvest_at. apply phit_pool_feed_wf, phit_pool_feed_wf, H.
Qed.

Lemma output_is_u64 a : Forall is_u64 a -> is_u64 (Spec.output a).
Proof.
  intros Ha. unfold Spec.output.
  assert (Hl : forall i, is_u64 (lane a i))
    by (intros i; apply Forall_lane; [exact Ha|apply is_u64_0]).
  repeat apply is_u64_lxor; try apply is_u64_rotl; try apply Hl; lia.
Qed.

Lemma phit_pool_extract_wf p w :
  pool_wf p ->
  pool_wf (snd (fst (phit_pool_extract p w)))
  /\ is_u64 (fst (fst (phit_pool_extract p w))).
Proof.
  intros Hwf. pose proof Hwf as (Hlen & _).
  rewrite (phit_pool_extract_run p w Hlen). cbv zeta.
  rewrite extract_harvests_run. cbn [fst snd].
  set (p4 := Spec.harvest_at _ _).
  assert (H4 : pool_wf p4) by (unfold p4; repeat apply harvest_at_wf; exact Hwf).
  clearbody p4.
  destruct H4 as (Hl4 & Ha4 & Hm4 & Hb4).
  pose proof (output_is_u64 _ Ha4) as Ho.
  split; [|exact Ho].
  apply pool_wf_mk; [reflexivity| |assumption|assumption].
  assert (Hl : forall i, is_u64 (lane (pool p4) i))
    by (intros i; apply Forall_lane; [exact Ha4|apply is_u64_0]).
  unfold mutated.
  apply Forall_cons;
    [apply is_u64_lxor; [apply Hl|apply is_u64_rotl; [exact Ho|lia]]|].
  apply Forall_cons;
    [apply is_u64_lxor; [apply Hl|apply is_u64_rotl; [exact Ho|lia]]|].
  apply Forall_cons; [apply Hl|].
  apply Forall_cons; [apply Hl|apply Forall_nil].
Qed.

(** X1. The types of the pool are an invariant of its operations: the
    all-zero pool of [phit_pool_init] has four 64-bit lanes, a 64-bit
    counter and an [int] diagnostic counter, and [phit_pool_feed],
    [phit_pool_harvest] and [phit_pool_extract] keep a pool so, whatever
    the sample and the timer; the value [phit_pool_extract] returns is a
    64-bit value. *)
Theorem pool_wf_invariant (p : phit_pool_t) (sample : Z) (w : World) :
  pool_wf p ->
  pool_wf phit_pool_init
  /\ pool_wf (phit_pool_feed p sample)
  /\ pool_wf (fst (phit_pool_harvest p w))
  /\ pool_wf (snd (fst (phit_pool_extract p w)))
  /\ 0 <= fst (fst (phit_pool_extract p w)) < 2 ^ 64.
Proof.
  intros Hwf.
  split.
  { unfold pool_wf, phit_pool_init. cbn [pool mix_counter bits_collected].
    split; [reflexivity|].
    split; [repeat constructor; apply is_u64_0|].
    split; [apply is_u64_0|lia]. }
  split; [apply phit_pool_feed_wf; exact Hwf|].
  split; [rewrite phit_pool_harvest_run; apply harvest_at_wf; exact Hwf|].
  apply phit_pool_extract_wf. exact Hwf.
Qed.

(** ** The hashes lose nothing *)

Lemma mul_odd_injective n c inv x y :
  0 < n -> (c * inv) mod 2 ^ n = 1 ->
  0 <= x < 2 ^ n -> 0 <= y < 2 ^ n ->
  (x * c) mod 2 ^ n = (y * c) mod 2 ^ n -> x = y.
Proof.
  intros Hn Hinv Hx Hy E.
  assert (Hm : 0 < 2 ^ n) by (apply Z.pow_pos_nonneg; lia).
  assert (R : forall z, 0 <= z < 2 ^ n ->
                        z = ((z * c) mod 2 ^ n * inv) mod 2 ^ n).
  { intros z Hz.
    rewrite Z.mul_mod_idemp_l by lia.
    rewrite <- Z.mul_assoc, <- Z.mul_mod_idemp_r by lia.
    rewrite Hinv, Z.mul_1_r. symmetry. apply Z.mod_small. exact Hz. }
  rewrite (R x Hx), (R y Hy), E. reflexivity.
Qed.

Lemma xorshift_bits_equal n s x y :
  0 < s -> 0 <= x < 2 ^ n -> 0 <= y < 2 ^ n ->
  Z.lxor x (Z.shiftr x s) = Z.lxor y (Z.shiftr y s) ->
  forall m : nat, forall i, 0 <= i -> n - i <= Z.of_nat m ->
  Z.testbit x i = Z.testbit y i.
Proof.
  intros Hs Hx Hy E.
  assert (Hn : 0 <= n).
  { destruct (Z.lt_ge_cases n 0) as [Hneg|]; [|assumption].
    rewrite Z.pow_neg_r in Hx by exact Hneg. lia. }
  induction m as [|m IH]; intros i Hi Hm.
  - rewrite (testbit_above x n i), (testbit_above y n i) by lia. reflexivity.
  - destruct (Z.le_gt_cases n i) as [Hge|Hlt].
    + rewrite (testbit_above x n i), (testbit_above y n i) by lia. reflexivity.
    + assert (Eb : Z.testbit (Z.lxor x (Z.shiftr x s)) i =
                   Z.testbit (Z.lxor y (Z.shiftr y s)) i) by (rewrite E; reflexivity).
      rewrite !Z.lxor_spec, !Z.shiftr_spec in Eb by lia.
      rewrite (IH (i + s)) in Eb by lia.
      destruct (Z.testbit x i), (Z.testbit y i), (Z.testbit y (i + s));
        cbn in Eb; congruence.
Qed.

Lemma xorshift_injective n s x y :
  0 < s -> 0 <= x < 2 ^ n -> 0 <= y < 2 ^ n ->
  Z.lxor x (Z.shiftr x s) = Z.lxor y (Z.shiftr y s) -> x = y.
Proof.
  intros Hs Hx Hy E. apply Z.bits_inj'. intros i Hi.
  apply (xorshift_bits_equal n s x y Hs Hx Hy E (Z.to_nat (n - i))); lia.
Qed.

Lemma phit_hash32_injective x y :
  0 <= x < 2 ^ 32 -> 0 <= y < 2 ^ 32 ->
  phit_hash32 x = phit_hash32 y -> x = y.
Proof.
  intros Hx Hy E. unfold phit_hash32 in E. cbv zeta in E.
  apply (xorshift_injective 32) in E; [|lia|apply u32_range|apply u32_range].
  unfold u32 at 1 3 in E.
  apply (mul_odd_injective 32 _ 2781581891) in E;
    [|lia|reflexivity| |].
  2, 3: apply (xorshift_range 32); [lia|lia|apply u32_range].
  apply (xorshift_injective 32) in E; [|lia|apply u32_range|apply u32_range].
  unfold u32 in E.
  apply (mul_odd_injective 32 _ 244002641) in E; [exact E|lia|reflexivity| |];
    assumption.
Qed.

Lemma phit_hash64_injective x y :
  0 <= x < 2 ^ 64 -> 0 <= y < 2 ^ 64 ->
  phit_hash64 x = phit_hash64 y -> x = y.
Proof.
  intros Hx Hy E. unfold phit_hash64 in E. cbv zeta in E.
  apply (xorshift_injective 64) in E; [|lia|apply u64_range|apply u64_range].
  unfold u64 at 1 3 in E.
  apply (mul_odd_injective 64 _ 3573116690164977347) in E;
    [|lia|reflexivity| |].
  2, 3: apply (xorshift_range 64); [lia|lia|apply u64_range].
  apply (xorshift_injective 64) in E; [|lia|apply u64_range|apply u64_range].
  unfold u64 in E.
  apply (mul_odd_injective 64 _ 10871156337175269513) in E;
    [|lia|reflexivity| |].
  2, 3: apply (xorshift_range 64); [lia|lia|assumption].
  apply (xorshift_injective 64) in E; [exact E|lia|assumption|assumption].
Qed.

(** X2. [phit_hash32] never maps two different 32-bit keys to one value:
    each of its four steps (multiplication by an odd constant modulo 2^32,
    XOR with a right shift) can be undone.  So the check
    [phit_hash32(42) == phit_hash32(43)] of [phit_selftest] can never
    fire.  The [phit_hash] of the scheduler is the same function. *)
Theorem hash32_one_to_one (x y : Z) :
  0 <= x < 2 ^ 32 -> 0 <= y < 2 ^ 32 ->
  (phit_hash32 x = phit_hash32 y <-> x = y)
  /\ (Scheduler.phit_hash x = Scheduler.phit_hash y <-> x = y).
Proof.
  intros Hx Hy. split; split.
  - apply phit_hash32_injective; assumption.
  - intros ->. reflexivity.
  - apply phit_hash32_injective; assumption.
  - intros ->. reflexivity.
Qed.

(** X3. [phit_hash64] never maps two different 64-bit values to one
    value. *)
Theorem hash64_one_to_one (x y : Z) :
  0 <= x < 2 ^ 64 -> 0 <= y < 2 ^ 64 ->
  (phit_hash64 x = phit_hash64 y <-> x = y).
Proof.
  intros Hx Hy. split.
  - apply phit_hash64_injective; assumption.
  - intros ->. reflexivity.
Qed.

(** ** What the samples take from the timer *)

Lemma sample_key_xor t x :
  sample_key t x = Z.lxor (u32 t) (u32 (4 * x)).
Proof.
  apply Z.bits_inj'. intros i Hi.
  destruct (Z.lt_ge_cases i 32) as [Hlt|Hge].
  - rewrite sample_key_bits by lia.
    rewrite Z.lxor_spec. unfold u32.
    rewrite !Z.mod_pow2_bits_low by lia.
    replace (4 * x) with (Z.shiftl x 2)
      by (rewrite Z.shiftl_mul_pow2 by lia; lia).
    destruct (i <? 2) eqn:E.
    + apply Z.ltb_lt in E. rewrite Z.shiftl_spec_low by lia.
      rewrite xorb_false_r. reflexivity.
    + apply Z.ltb_ge in E. rewrite Z.shiftl_spec by lia. reflexivity.
  - rewrite Z.lxor_spec.
    rewrite (testbit_above (sample_key t x) 32 i),
            (testbit_above (u32 t) 32 i),
            (testbit_above (u32 (4 * x)) 32 i);
      try lia; try apply u32_range.
    reflexivity.
Qed.

Lemma u32_u64 t : u32 (u64 t) = u32 t.
Proof.
  unfold u32, u64.
  change (2 ^ 64) with (2 ^ 32 * 2 ^ 32).
  rewrite Z.rem_mul_r by lia.
  rewrite Z.mul_comm, Z.mod_add by lia.
  apply Z.mod_mod. lia.
Qed.

Lemma sample_key_low32 t x : sample_key t x = sample_key (u32 t) x.
Proof.
  rewrite !sample_key_xor. f_equal. unfold u32. rewrite Z.mod_mod by lia.
  reflexivity.
Qed.

Lemma lxor_cancel_r a b c : Z.lxor a c = Z.lxor b c -> a = b.
Proof.
  intros E.
  assert (E' : Z.lxor (Z.lxor a c) c = Z.lxor (Z.lxor b c) c) by (rewrite E; reflexivity).
  rewrite !Z.lxor_assoc, !Z.lxor_nilpotent, !Z.lxor_0_r in E'. exact E'.
Qed.

Lemma lxor_cancel_l a b c : Z.lxor c a = Z.lxor c b -> a = b.
Proof.
  rewrite !(Z.lxor_comm c). apply lxor_cancel_r.
Qed.

Lemma phit_sample_run w :
  phit_sample w =
  (phit_hash32 (sample_key (u64 (clock w (ticks w)))
                           (Nat.iter 10 lcg 0xDEADBEEF)),
   after_reads w 1 (Nat.iter 10 lcg 0xDEADBEEF)).
Proof.
  unfold phit_sample, bind, write_sink, phit_now_ns, ret, after_reads.
  cbn [clock ticks phit__sink]. rewrite Nat.add_1_r. reflexivity.
Qed.

(** X4. [phit_sample] reads the timer once and returns a 32-bit value that
    is a one-to-one function of the low 32 bits of that timer value: the
    key it hashes is those 32 bits XORed with a constant (four times the
    workload value, which is the same in every call), and the hash loses
    nothing.  Two calls return the same sample exactly when their timer
    values agree modulo 2^32. *)
Theorem phit_sample_timer_low32 (w1 w2 : World) :
  (fst (phit_sample w1) = fst (phit_sample w2)
     <-> u32 (clock w1 (ticks w1)) = u32 (clock w2 (ticks w2)))
  /\ fst (phit_sample w1) =
       phit_hash32 (Z.lxor (u32 (clock w1 (ticks w1)))
                           (u32 (4 * Nat.iter 10 lcg 0xDEADBEEF)))
  /\ 0 <= fst (phit_sample w1) < 2 ^ 32
  /\ ticks (snd (phit_sample w1)) = S (ticks w1).
Proof.
  rewrite !phit_sample_run. cbn [fst snd].
  rewrite !sample_key_xor, !u32_u64.
  split; [split|].
  - intros E. apply phit_hash32_injective in E.
    + apply lxor_cancel_r in E. exact E.
    + apply (lxor_range 32); [lia|apply u32_range|apply u32_range].
    + apply (lxor_range 32); [lia|apply u32_range|apply u32_range].
  - intros ->. reflexivity.
  - split; [reflexivity|]. split; [apply phit_hash32_range|].
    unfold after_reads. cbn [ticks]. lia.
Qed.

Lemma compound_fold_low32 inner ts1 ts2 :
  Forall2 (fun a b => u32 a = u32 b) ts1 ts2 ->
  forall i acc,
    Spec.compound_fold inner i ts1 acc = Spec.compound_fold inner i ts2 acc.
Proof.
  induction 1 as [|t1 t2 ts1 ts2 Ht _ IH]; intros i acc; [reflexivity|].
  cbn [Spec.compound_fold]. cbv zeta.
  rewrite (sample_key_low32 t1), (sample_key_low32 t2), Ht.
  apply IH.
Qed.

Lemma Forall2_map_seq (R : Z -> Z -> Prop) (f g : nat -> Z) n : forall s,
  (forall i, (s <= i < s + n)%nat -> R (f i) (g i)) ->
  Forall2 R (map f (seq s n)) (map g (seq s n)).
Proof.
  induction n as [|n IH]; intros s H; cbn [seq map]; constructor.
  - apply H. lia.
  - apply IH. intros i Hi. apply H. lia.
Qed.

(** X5. [phit_sample_compound] uses only the low 32 bits of each timer
    value it reads: two runs whose timer values agree modulo 2^32, read
    for read, return the same compound sample. *)
Theorem compound_sample_timer_low32 (n : Z) (w1 w2 : World) :
  (forall i, (i < Z.to_nat n)%nat ->
     u32 (clock w1 (ticks w1 + i)) = u32 (clock w2 (ticks w2 + i))) ->
  fst (phit_sample_compound n w1) = fst (phit_sample_compound n w2).
Proof.
  intros H.
  destruct (Z.le_gt_cases n 0) as [Hn|Hn].
  - rewrite !phit_sample_compound_none by exact Hn. reflexivity.
  - rewrite !phit_sample_compound_run by lia. cbn [fst].
    unfold Spec.compound_hashed. f_equal.
    apply compound_fold_low32. unfold reads.
    apply Forall2_map_seq. intros i Hi.
    rewrite !u32_u64. apply H. lia.
Qed.

Lemma compound_workload_0 : compound_workload 0 = Nat.iter 10 lcg 0xDEADBEEF.
Proof. vm_compute. reflexivity. Qed.

(** X6. A compound sample of one read is the basic sample, rotated left by
    7 in 32 bits and hashed once more; both leave the same world. *)
Theorem compound_of_one_read (w : World) :
  phit_sample_compound 1 w =
  (phit_hash32 (Spec.rotl32 (fst (phit_sample w)) 7), snd (phit_sample w)).
Proof.
  rewrite (phit_sample_compound_run 1 w) by lia.
  rewrite phit_sample_run. cbn [fst snd].
  change (Z.to_nat 1) with 1%nat. change (1 - 1) with 0.
  rewrite compound_workload_0.
  unfold Spec.compound_hashed, reads. cbn [seq map Spec.compound_fold].
  cbv zeta. rewrite compound_workload_0, Nat.add_0_r, Z.add_0_r.
  rewrite Z.lxor_0_l, Z.mod_small by apply u32_range.
  rewrite <- !phit_hash32_avalanche32. reflexivity.
Qed.

(** ** A feed can be undone *)

(** The lanes after a feed, slot by slot. *)
Lemma feed_lanes_cases p sample a0 a1 a2 a3 :
  pool p = [a0; a1; a2; a3] ->
  let z := Spec.mix64
             ((sample + Spec.feed_counter p * Spec.GOLDEN_RATIO_CONSTANT)
                mod 2 ^ 64) in
  let s := Spec.feed_counter p mod 4 in
  (s = 0 /\ Spec.feed_lanes p sample =
     [Z.lxor a0 z; Z.lxor a1 (phit__rotl64 (Z.lxor a0 z) 17); a2; a3])
  \/ (s = 1 /\ Spec.feed_lanes p sample =
     [a0; Z.lxor a1 z; Z.lxor a2 (phit__rotl64 (Z.lxor a1 z) 17); a3])
  \/ (s = 2 /\ Spec.feed_lanes p sample =
     [a0; a1; Z.lxor a2 z; Z.lxor a3 (phit__rotl64 (Z.lxor a2 z) 17)])
  \/ (s = 3 /\ Spec.feed_lanes p sample =
     [Z.lxor a0 (phit__rotl64 (Z.lxor a3 z) 17); a1; a2; Z.lxor a3 z]).
Proof.
  intros Ha z s. unfold Spec.feed_lanes. cbv zeta. fold z.
  change Spec.L with 4. fold s. rewrite Ha. clearbody z.
  destruct (mod_4_cases (Spec.feed_counter p)) as [E|[E|[E|E]]];
    fold s in E; rewrite E.
  - left. split; reflexivity.
  - right; left. split; reflexivity.
  - right; right; left. split; reflexivity.
  - right; right; right. split; reflexivity.
Qed.

Lemma u64_add_cancel a b c : u64 (a + c) = u64 (b + c) -> u64 a = u64 b.
Proof.
  unfold u64. intros E.
  assert (E' : ((a + c) mod 2 ^ 64 + - c) mod 2 ^ 64
               = ((b + c) mod 2 ^ 64 + - c) mod 2 ^ 64) by (rewrite E; reflexivity).
  rewrite !Z.add_mod_idemp_l in E' by lia.
  replace (a + c + - c) with a in E' by lia.
  replace (b + c + - c) with b in E' by lia. exact E'.
Qed.

Lemma int32_add_cancel a b c :
  - 2 ^ 31 <= a < 2 ^ 31 -> - 2 ^ 31 <= b < 2 ^ 31 ->
  int32 (a + c) = int32 (b + c) -> a = b.
Proof.
  intros Ha Hb E. unfold int32 in E.
  assert (E1 : (a + c + 2 ^ 31) mod 2 ^ 32 = (b + c + 2 ^ 31) mod 2 ^ 32) by lia.
  assert (E2 : ((a + c + 2 ^ 31) mod 2 ^ 32 + - c) mod 2 ^ 32
             = ((b + c + 2 ^ 31) mod 2 ^ 32 + - c) mod 2 ^ 32)
    by (rewrite E1; reflexivity).
  rewrite !Z.add_mod_idemp_l in E2 by lia.
  replace (a + c + 2 ^ 31 + - c) with (a + 2 ^ 31) in E2 by lia.
  replace (b + c + 2 ^ 31 + - c) with (b + 2 ^ 31) in E2 by lia.
  rewrite !Z.mod_small in E2 by lia. lia.
Qed.

(** X7. A feed never mixes two different samples alike: on a pool of four
    lanes, feeding samples that differ modulo 2^64 gives different pools,
    because the value XORed into the selected lane is a one-to-one
    function of the sample. *)
Theorem feed_separates_samples (p : phit_pool_t) (s1 s2 : Z) :
  length (pool p) = 4%nat ->
  (phit_pool_feed p s1 = phit_pool_feed p s2 <-> u64 s1 = u64 s2).
Proof.
  intros Hlen. rewrite !phit_pool_feed_spec.
  destruct (four_lanes _ Hlen) as (a0 & a1 & a2 & a3 & Ha).
  split.
  - intros E. injection E as E.
    pose proof (feed_lanes_cases p s1 a0 a1 a2 a3 Ha) as C1.
    pose proof (feed_lanes_cases p s2 a0 a1 a2 a3 Ha) as C2.
    cbv zeta in C1, C2.
    set (z1 := Spec.mix64 _) in C1. set (z2 := Spec.mix64 _) in C2.
    assert (Ez : z1 = z2).
    { clearbody z1 z2.
      destruct C1 as [[S1 L1]|[[S1 L1]|[[S1 L1]|[S1 L1]]]];
        destruct C2 as [[S2 L2]|[[S2 L2]|[[S2 L2]|[S2 L2]]]];
        try lia; rewrite L1, L2 in E; injection E; intros;
        eapply lxor_cancel_l; eassumption. }
    unfold z1, z2 in Ez. rewrite <- !phit_hash64_mix64 in Ez.
    apply phit_hash64_injective in Ez;
      [|apply Z.mod_pos_bound; lia|apply Z.mod_pos_bound; lia].
    apply (u64_add_cancel _ _ _ Ez).
  - intros E. f_equal. unfold Spec.feed_lanes. cbv zeta.
    replace ((s1 + Spec.feed_counter p * Spec.GOLDEN_RATIO_CONSTANT) mod 2 ^ 64)
      with ((s2 + Spec.feed_counter p * Spec.GOLDEN_RATIO_CONSTANT) mod 2 ^ 64).
    + reflexivity.
    + unfold u64 in E.
      rewrite <- (Z.add_mod_idemp_l s1), <- (Z.add_mod_idemp_l s2) by lia.
      rewrite E. reflexivity.
Qed.

Lemma pool_eq p q :
  pool p = pool q -> mix_counter p = mix_counter q ->
  bits_collected p = bits_collected q -> p = q.
Proof.
  destruct p as [pa pm pb], q as [qa qm qb].
  cbn [pool mix_counter bits_collected]. intros -> -> ->. reflexivity.
Qed.

(** X8. A feed loses nothing of the pool: with the sample fixed it is
    one-to-one on well-formed pools (the lanes are only XORed with values
    that the result still determines, and the counters only advance), so
    two different pools never become equal by absorbing the same
    sample. *)
Theorem feed_one_to_one (p q : phit_pool_t) (sample : Z) :
  pool_wf p -> pool_wf q ->
  phit_pool_feed p sample = phit_pool_feed q sample -> p = q.
Proof.
  intros (Hlp & _ & Hmp & Hbp) (Hlq & _ & Hmq & Hbq) E.
  rewrite !phit_pool_feed_spec in E. injection E as El Ec Eb.
  assert (Emc : mix_counter p = mix_counter q).
  { unfold Spec.feed_counter in Ec. unfold is_u64 in Hmp, Hmq.
    apply (u64_add_cancel _ _ 1) in Ec. unfold u64 in Ec.
    rewrite !Z.mod_small in Ec by lia. exact Ec. }
  assert (Ebits : bits_collected p = bits_collected q)
    by (apply (int32_add_cancel _ _ 2); assumption).
  destruct (four_lanes _ Hlp) as (a0 & a1 & a2 & a3 & Ha).
  destruct (four_lanes _ Hlq) as (b0 & b1 & b2 & b3 & Hb).
  pose proof (feed_lanes_cases p sample a0 a1 a2 a3 Ha) as C1.
  pose proof (feed_lanes_cases q sample b0 b1 b2 b3 Hb) as C2.
  cbv zeta in C1, C2.
  assert (Efc : Spec.feed_counter q = Spec.feed_counter p)
    by (unfold Spec.feed_counter; rewrite Emc; reflexivity).
  rewrite Efc in C2.
  set (z := Spec.mix64 _) in C1, C2. clearbody z.
  assert (Elanes : pool p = pool q).
  { rewrite Ha, Hb.
    destruct C1 as [[S1 L1]|[[S1 L1]|[[S1 L1]|[S1 L1]]]];
      destruct C2 as [[S2 L2]|[[S2 L2]|[[S2 L2]|[S2 L2]]]];
      try lia; rewrite L1, L2 in El;
      injection El as E0 E1 E2 E3; subst;
      repeat match goal with
             | H : Z.lxor _ ?c = Z.lxor _ ?c |- _ =>
                 apply lxor_cancel_r in H; subst
             end; reflexivity. }
  apply pool_eq; assumption.
Qed.

(** ** The output of extract and the pool it leaves *)

Lemma bit64_lxor a b i : bit64 (Z.lxor a b) i = xorb (bit64 a i) (bit64 b i).
Proof. unfold bit64. apply Z.lxor_spec. Qed.

Lemma bit64_rotl x k i :
  is_u64 x -> 0 < k < 64 -> bit64 (phit__rotl64 x k) i = bit64 x (i - k).
Proof.
  intros Hx Hk. unfold bit64.
  rewrite rotl64_testbit; [|exact Hx|exact Hk|apply Z.mod_pos_bound; lia].
  rewrite Zminus_mod_idemp_l. reflexivity.
Qed.

Lemma bit64_period x i m : bit64 x (i - 64 * m) = bit64 x i.
Proof.
  unfold bit64. f_equal.
  replace (i - 64 * m) with (i + (- m) * 64) by lia.
  apply Z.mod_add. lia.
Qed.

Lemma bit64_ext a b :
  is_u64 a -> is_u64 b -> (forall i, bit64 a i = bit64 b i) -> a = b.
Proof.
  intros Ha Hb H. apply Z.bits_inj'. intros i Hi.
  destruct (Z.lt_ge_cases i 64) as [Hlt|Hge].
  - specialize (H i). unfold bit64 in H.
    rewrite Z.mod_small in H by lia. exact H.
  - rewrite (testbit_above a 64 i), (testbit_above b 64 i) by (try exact Ha; try exact Hb; lia).
    reflexivity.
Qed.

(** A sequence of bits that is the XOR of itself at two lags is also the
    XOR of itself at the doubled lags. *)
Lemma lag_double (D : Z -> bool) j k :
  (forall i, D i = xorb (D (i - j)) (D (i - k))) ->
  forall i, D i = xorb (D (i - 2 * j)) (D (i - 2 * k)).
Proof.
  intros H i. rewrite (H i), (H (i - j)), (H (i - k)).
  replace (i - j - j) with (i - 2 * j) by lia.
  replace (i - k - k) with (i - 2 * k) by lia.
  replace (i - k - j) with (i - j - k) by lia.
  destruct (D (i - 2 * j)), (D (i - j - k)), (D (i - 2 * k)); reflexivity.
Qed.

Lemma xorb_move a x b y : xorb a x = xorb b y -> xorb a b = xorb x y.
Proof. destruct a, x, b, y; cbn; congruence. Qed.

Lemma Forall_four (P : Z -> Prop) a0 a1 a2 a3 :
  Forall P [a0; a1; a2; a3] -> P a0 /\ P a1 /\ P a2 /\ P a3.
Proof.
  intros H.
  pose proof (Forall_inv H) as H0. apply Forall_inv_tail in H.
  pose proof (Forall_inv H) as H1. apply Forall_inv_tail in H.
  pose proof (Forall_inv H) as H2. apply Forall_inv_tail in H.
  pose proof (Forall_inv H) as H3. auto.
Qed.

Lemma mutated_determines_output a b :
  length a = 4%nat -> length b = 4%nat ->
  Forall is_u64 a -> Forall is_u64 b ->
  mutated a (Spec.output a) = mutated b (Spec.output b) ->
  Spec.output a = Spec.output b /\ a = b.
Proof.
  intros Hla Hlb Ha Hb E.
  pose proof (output_is_u64 a Ha) as Hoa.
  pose proof (output_is_u64 b Hb) as Hob.
  destruct (four_lanes _ Hla) as (a0 & a1 & a2 & a3 & ->).
  destruct (four_lanes _ Hlb) as (b0 & b1 & b2 & b3 & ->).
  destruct (Forall_four _ _ _ _ _ Ha) as (Ua0 & Ua1 & Ua2 & Ua3).
  destruct (Forall_four _ _ _ _ _ Hb) as (Ub0 & Ub1 & Ub2 & Ub3).
  assert (Ea : Spec.output [a0; a1; a2; a3] =
               Z.lxor (Z.lxor (Z.lxor a0 (phit__rotl64 a1 13))
                              (phit__rotl64 a2 29)) (phit__rotl64 a3 43))
    by reflexivity.
  assert (Eb : Spec.output [b0; b1; b2; b3] =
               Z.lxor (Z.lxor (Z.lxor b0 (phit__rotl64 b1 13))
                              (phit__rotl64 b2 29)) (phit__rotl64 b3 43))
    by reflexivity.
  set (oa := Spec.output [a0; a1; a2; a3]) in *.
  set (ob := Spec.output [b0; b1; b2; b3]) in *.
  clearbody oa ob.
  unfold mutated in E.
  change (lane [a0; a1; a2; a3] 0) with a0 in E.
  change (lane [a0; a1; a2; a3] 1) with a1 in E.
  change (lane [a0; a1; a2; a3] 2) with a2 in E.
  change (lane [a0; a1; a2; a3] 3) with a3 in E.
  change (lane [b0; b1; b2; b3] 0) with b0 in E.
  change (lane [b0; b1; b2; b3] 1) with b1 in E.
  change (lane [b0; b1; b2; b3] 2) with b2 in E.
  change (lane [b0; b1; b2; b3] 3) with b3 in E.
  injection E as E0 E1 E2 E3. subst b2 b3.
  set (D := fun i => xorb (bit64 oa i) (bit64 ob i)).
  assert (R : forall i, D i = xorb (D (i - 7)) (D (i - 36))).
  { intros i. unfold D.
    assert (B0 : xorb (bit64 a0 i) (bit64 b0 i)
                 = xorb (bit64 oa (i - 7)) (bit64 ob (i - 7))).
    { apply xorb_move. rewrite <- !(bit64_rotl _ 7) by (assumption || lia).
      rewrite <- !bit64_lxor, E0. reflexivity. }
    assert (B1 : xorb (bit64 a1 (i - 13)) (bit64 b1 (i - 13))
                 = xorb (bit64 oa (i - 36)) (bit64 ob (i - 36))).
    { apply xorb_move. replace (i - 36) with (i - 13 - 23) by lia.
      rewrite <- !(bit64_rotl _ 23) by (assumption || lia).
      rewrite <- !bit64_lxor, E1. reflexivity. }
    rewrite <- B0, <- B1. rewrite Ea, Eb.
    rewrite !bit64_lxor, !bit64_rotl by (assumption || lia).
    destruct (bit64 a0 i), (bit64 b0 i), (bit64 a1 (i - 13)),
      (bit64 b1 (i - 13)), (bit64 a2 (i - 29)), (bit64 a3 (i - 43));
      reflexivity. }
  assert (Z0 : forall i, D i = false).
  { intros i.
    pose proof (lag_double D _ _ (lag_double D _ _ (lag_double D _ _
                 (lag_double D _ _ (lag_double D _ _ (lag_double D _ _ R)))))
                 i) as H.
    unfold D in H.
    replace (i - 2 * (2 * (2 * (2 * (2 * (2 * 7))))))
      with (i - 64 * 7) in H by lia.
    replace (i - 2 * (2 * (2 * (2 * (2 * (2 * 36))))))
      with (i - 64 * 36) in H by lia.
    rewrite !bit64_period in H. unfold D.
    destruct (bit64 oa i), (bit64 ob i); cbn in H |- *; congruence. }
  assert (Eo : oa = ob).
  { apply bit64_ext; [exact Hoa|exact Hob|].
    intros i. specialize (Z0 i). unfold D in Z0.
    destruct (bit64 oa i), (bit64 ob i); cbn in Z0; congruence. }
  split; [exact Eo|].
  rewrite <- Eo in E0, E1.
  apply lxor_cancel_r in E0. apply lxor_cancel_r in E1.
  rewrite E0, E1. reflexivity.
Qed.

(** X9. The value [phit_pool_extract] returns is determined by the lanes
    it leaves behind: two extractions, on any well-formed pools and with
    any timers, that leave the same four lanes returned the same value, and
    the lanes were already equal before the mutation step.  (The lanes
    left, combined as the output is, give out XOR rotl(out,7) XOR
    rotl(out,36), a one-to-one function of out.) *)
Theorem extract_output_determined (p q : phit_pool_t) (w v : World) :
  pool_wf p -> pool_wf q ->
  pool (snd (fst (phit_pool_extract p w))) =
    pool (snd (fst (phit_pool_extract q v))) ->
  fst (fst (phit_pool_extract p w)) = fst (fst (phit_pool_extract q v))
  /\ pool (fst (extract_harvests p w)) = pool (fst (extract_harvests q v)).
Proof.
  intros Hp Hq.
  pose proof Hp as (Hlp & _). pose proof Hq as (Hlq & _).
  rewrite (phit_pool_extract_run p w Hlp), (phit_pool_extract_run q v Hlq).
  cbv zeta. rewrite !extract_harvests_run. cbn [fst snd].
  set (p4 := Spec.harvest_at _ (Spec.harvest_at _ (Spec.harvest_at _
               (Spec.harvest_at _ p)))).
  set (q4 := Spec.harvest_at _ (Spec.harvest_at _ (Spec.harvest_at _
               (Spec.harvest_at _ q)))).
  assert (Hp4 : pool_wf p4) by (unfold p4; repeat apply harvest_at_wf; exact Hp).
  assert (Hq4 : pool_wf q4) by (unfold q4; repeat apply harvest_at_wf; exact Hq).
  clearbody p4 q4.
  destruct Hp4 as (L1 & F1 & _). destruct Hq4 as (L2 & F2 & _).
  intros E.
  apply mutated_determines_output; assumption.
Qed.

(** ** The routers and the bounded draw at their edges *)

(** X10. [phit_route] has a defined result for every [int] but 0.  A
    negative [num_destinations] is not rejected either: converted to
    [unsigned] it is the divisor [2^32 + num_destinations], and the
    remainder, converted back to [int], is returned; two timer reads are
    made in every defined case. *)
Theorem route_defined_unless_zero (k : Z) (w : World) :
  - 2 ^ 31 <= k <= INT_MAX ->
  (phit_route k w = Undefined <-> k = 0)
  /\ phit_route k w <> Aborts
  /\ (k < 0 ->
        phit_route k w =
        Returns (int32 (fst (phit_sample_compound 2 w) mod (2 ^ 32 + k)),
                 snd (phit_sample_compound 2 w))).
Proof.
  intros Hk. unfold INT_MAX in Hk. unfold phit_route.
  destruct (phit_sample_compound 2 w) as [s w']. cbn [fst snd].
  unfold umod.
  assert (Hu : u32 k = if k <? 0 then 2 ^ 32 + k else k).
  { unfold u32. destruct (k <? 0) eqn:E.
    - apply Z.ltb_lt in E. symmetry.
      apply (Z.mod_unique k (2 ^ 32) (-1)); lia.
    - apply Z.ltb_ge in E. apply Z.mod_small. lia. }
  destruct (u32 k =? 0) eqn:E0.
  - apply Z.eqb_eq in E0. cbn [obind].
    assert (k = 0) by (destruct (k <? 0) eqn:E; [apply Z.ltb_lt in E|]; lia).
    split; [tauto|]. split; [discriminate|]. lia.
  - apply Z.eqb_neq in E0. cbn [obind].
    split; [split; [discriminate|intros ->; exfalso; apply E0; reflexivity]|].
    split; [discriminate|].
    intros Hneg. rewrite Hu.
    destruct (k <? 0) eqn:E; [reflexivity|apply Z.ltb_ge in E; lia].
Qed.

Lemma for_from_ext {St} (f g : Z -> St -> M St) :
  (forall i s w, f i s w = g i s w) ->
  forall n i s w, for_from n i f s w = for_from n i g s w.
Proof.
  intros H. induction n as [|n IH]; intros i s w; [reflexivity|].
  cbn [for_from]. unfold bind. rewrite H.
  destruct (g i s w) as [s' w']. apply IH.
Qed.

Lemma rotl64_same x k : rotl64 x k = phit__rotl64 x k.
Proof. reflexivity. Qed.

Lemma pool_harvest_same p w : pool_harvest p w = phit_pool_harvest p w.
Proof.
  unfold pool_harvest, phit_pool_harvest, harvest_workload,
    PHIT_WORKLOAD_ITERS, bind, write_sink, phit_now_ns, ret.
  cbv zeta. rewrite !pool_feed_same. reflexivity.
Qed.

Lemma pool_extract_same p w : pool_extract p w = phit_pool_extract p w.
Proof.
  unfold pool_extract, phit_pool_extract, extract_harvests, for_loop, bind, ret.
  change (Z.to_nat (PHIT_POOL_LANES - 0)) with (Z.to_nat (4 - 0)).
  rewrite (for_from_ext (fun _ p => pool_harvest p)
                        (fun _ p => phit_pool_harvest p))
    by (intros; apply pool_harvest_same).
  destruct (for_from _ _ _ _ _) as [p4 w4].
  rewrite !rotl64_same. reflexivity.
Qed.

Lemma prng_u64_same rng w : prng_u64 rng w = phit_prng_u64 rng w.
Proof.
  unfold prng_u64, phit_prng_u64, bind, ret.
  rewrite pool_extract_same.
  destruct (phit_pool_extract (prng_pool rng) w) as [[o p'] w'].
  reflexivity.
Qed.

(** X11. The stand-alone [prng_range] of [phit_prng.c] has no test of
    [max]: it draws a value and takes the remainder.  For every 32-bit
    [max] other than 0 it returns what [phit_prng_range] of the library
    returns; at [max = 0] its behaviour is undefined, where the library
    returns 0 without drawing. *)
Theorem prng_range_unguarded (rng : phit_prng_t) (max : Z) (w : World) :
  0 <= max < 2 ^ 32 ->
  (max <> 0 -> prng_range rng max w = Returns (phit_prng_range rng max w))
  /\ (max = 0 ->
        prng_range rng max w = Undefined
        /\ phit_prng_range rng max w = (0, rng, w)).
Proof.
  intros Hmax. unfold prng_range, phit_prng_range, umod.
  rewrite prng_u64_same. unfold bind, ret.
  destruct (max =? 0) eqn:E; cbv beta;
    destruct (phit_prng_u64 rng w) as [[v rng'] w'].
  - apply Z.eqb_eq in E. split; [intros H; contradiction|].
    intros _. split; reflexivity.
  - apply Z.eqb_neq in E. split; [|intros H; contradiction].
    intros _. reflexivity.
Qed.

(** X12. The router of [phit_scheduler.c] routes on one basic sample: for
    every [num_workers > 0] it returns the value [phit_sample] of the
    library would return, taken modulo [num_workers], hence a worker index
    in [0, num_workers), after one timer read; for [num_workers = 0] its
    behaviour is undefined. *)
Theorem scheduler_route_in_range (k : Z) (w : World) :
  0 < k <= INT_MAX ->
  Scheduler.phit_route k w =
    Returns (fst (phit_sample w) mod k, snd (phit_sample w))
  /\ 0 <= fst (phit_sample w) mod k < k
  /\ ticks (snd (phit_sample w)) = S (ticks w)
  /\ Scheduler.phit_route 0 w = Undefined.
Proof.
  intros Hk. unfold INT_MAX in Hk.
  rewrite phit_sample_run. cbn [fst snd].
  unfold Scheduler.phit_route, write_sink, phit_now_ns, umod.
  cbn [clock ticks phit__sink]. cbv zeta.
  change (Scheduler.phit_hash ?x) with (phit_hash32 x).
  set (s := phit_hash32 _).
  pose proof (Z.mod_pos_bound s k ltac:(lia)) as Hb.
  split.
  - rewrite u32_small by lia.
    destruct (k =? 0) eqn:E; [apply Z.eqb_eq in E; lia|].
    cbn [obind]. rewrite int32_small by lia.
    unfold after_reads. cbn [clock ticks]. rewrite Nat.add_1_r. reflexivity.
  - split; [exact Hb|]. split; [unfold after_reads; cbn [ticks]; lia|].
    reflexivity.
Qed.

(** ** Quantizing a delta *)

(** X13. [phit__quantize] rounds a delta to the nearest multiple of the
    42 ns tick, halves going up: for every delta whose tick count fits an
    [int] the result [q] is non-negative and [42q - 21 <= delta <=
    42q + 20], and it is monotone there.  The sum [delta + 21] is taken on
    64 bits: the 21 largest deltas wrap and give 0. *)
Theorem quantize_nearest_tick (d e : Z) :
  0 <= d < 2 ^ 64 ->
  (d <= 42 * INT_MAX + 20 ->
     0 <= phit__quantize d
     /\ 42 * phit__quantize d - 21 <= d <= 42 * phit__quantize d + 20
     /\ (0 <= e <= d -> phit__quantize e <= phit__quantize d))
  /\ (2 ^ 64 - 21 <= d -> phit__quantize d = 0).
Proof.
  intros Hd. unfold INT_MAX, phit__quantize. split.
  - intros Hfit.
    assert (Q : forall x, 0 <= x <= d ->
                int32 (u64 (x + 21) / 42) = (x + 21) / 42
                /\ 0 <= (x + 21) / 42 <= 2 ^ 31 - 1).
    { intros x Hx. rewrite u64_small by lia.
      assert (Hq : 0 <= (x + 21) / 42 <= 2 ^ 31 - 1).
      { split; [apply Z.div_pos; lia|].
        assert ((x + 21) / 42 < 2 ^ 31)
          by (apply Z.div_lt_upper_bound; lia).
        lia. }
      split; [apply int32_small; lia|exact Hq]. }
    destruct (Q d ltac:(lia)) as [Ed Hq]. rewrite Ed.
    pose proof (Z.div_mod (d + 21) 42 ltac:(lia)) as Hdm.
    pose proof (Z.mod_pos_bound (d + 21) 42 ltac:(lia)) as Hm.
    split; [lia|]. split; [lia|].
    intros He. destruct (Q e He) as [Ee _]. rewrite Ee.
    apply Z.div_le_mono; lia.
  - intros Hw. unfold u64.
    replace ((d + 21) mod 2 ^ 64) with (d + 21 - 2 ^ 64)
      by (apply (Z.mod_unique (d + 21) (2 ^ 64) 1); lia).
    rewrite Z.div_small by lia. reflexivity.
Qed.

(** ** Seeding and drawing *)

Lemma bits_collected_feed p sample :
  bits_collected (phit_pool_feed p sample) = int32 (bits_collected p + 2).
Proof. reflexivity. Qed.

Lemma int32_add_int32 x k : int32 (int32 x + k) = int32 (x + k).
Proof.
  unfold int32. f_equal.
  replace ((x + 2 ^ 31) mod 2 ^ 32 - 2 ^ 31 + k + 2 ^ 31)
    with ((x + 2 ^ 31) mod 2 ^ 32 + k) by lia.
  rewrite Z.add_mod_idemp_l by lia. f_equal. lia.
Qed.

Lemma bits_collected_harvest_at t p :
  bits_collected (Spec.harvest_at t p) = int32 (bits_collected p + 4).
Proof.
  unfold Spec.harvest_at. rewrite !bits_collected_feed, int32_add_int32.
  f_equal. lia.
Qed.

(** A loop of [n] harvests. *)
Lemma harvest_loop n : forall i p w p' w',
  pool_wf p ->
  for_from n i (fun _ p => phit_pool_harvest p) p w = (p', w') ->
  pool_wf p'
  /\ mix_counter p' = u64 (mix_counter p + 2 * Z.of_nat n)
  /\ bits_collected p' = int32 (bits_collected p + 4 * Z.of_nat n)
  /\ clock w' = clock w
  /\ ticks w' = (ticks w + n)%nat.
Proof.
  induction n as [|n IH]; intros i p w p' w' Hwf E.
  - cbn [for_from] in E. unfold ret in E. injection E as <- <-.
    pose proof Hwf as (Hl & Ha & Hm & Hb).
    cbn [Z.of_nat]. rewrite !Z.mul_0_r, !Z.add_0_r, Nat.add_0_r.
    rewrite u64_small by exact Hm. rewrite int32_small by exact Hb.
    split; [exact Hwf|]. repeat split; reflexivity.
  - cbn [for_from] in E. unfold bind in E.
    rewrite phit_pool_harvest_run in E.
    apply IH in E; [|apply harvest_at_wf; exact Hwf].
    destruct E as (Hwf' & Hm & Hb & Hc & Ht).
    rewrite mix_counter_harvest_at in Hm.
    rewrite bits_collected_harvest_at in Hb.
    rewrite u64_add_u64 in Hm. rewrite int32_add_int32 in Hb.
    rewrite after_reads_clock in Hc. rewrite after_reads_ticks in Ht.
    split; [exact Hwf'|].
    split; [rewrite Hm; f_equal; lia|].
    split; [rewrite Hb; f_equal; lia|].
    split; [exact Hc|lia].
Qed.

Lemma pool_init_wf : pool_wf phit_pool_init.
Proof.
  apply pool_wf_mk; [reflexivity| |apply is_u64_0|lia].
  repeat apply Forall_cons; try apply is_u64_0. apply Forall_nil.
Qed.

Lemma prng_init_same w : prng_init w = phit_prng_init w.
Proof.
  unfold prng_init, phit_prng_init, for_loop, bind, ret.
  cbn [prng_pool generated].
  change (Z.to_nat (PHIT_PRNG_SEED_ROUNDS - 0)) with (Z.to_nat (16 - 0)).
  change (mkPool [0; 0; 0; 0] 0 0) with phit_pool_init.
  rewrite (for_from_ext (fun _ p => pool_harvest p)
                        (fun _ p => phit_pool_harvest p))
    by (intros; apply pool_harvest_same).
  reflexivity.
Qed.

Lemma phit_prng_init_run w p' w' :
  for_from 16 0 (fun _ p => phit_pool_harvest p) phit_pool_init w = (p', w') ->
  phit_prng_init w = (mkPrng p' 0, w').
Proof.
  intros E. unfold phit_prng_init, for_loop, bind, ret.
  cbn [prng_pool generated].
  change (Z.to_nat (PHIT_PRNG_SEED_ROUNDS - 0)) with 16%nat.
  rewrite E. reflexivity.
Qed.

(** X14. Seeding does the same work whatever the timer returns:
    [phit_prng_init] makes 16 timer reads and leaves a well-formed pool
    with the mix counter at 32 (two feeds for each of 16 harvests), the
    diagnostic counter at 64 and no value generated yet.  The [prng_init]
    of [phit_prng.c] is the same function. *)
Theorem prng_init_state (w : World) :
  exists rng w',
    phit_prng_init w = (rng, w')
    /\ prng_init w = (rng, w')
    /\ pool_wf (prng_pool rng)
    /\ mix_counter (prng_pool rng) = 32
    /\ bits_collected (prng_pool rng) = 64
    /\ generated rng = 0
    /\ clock w' = clock w
    /\ ticks w' = (ticks w + 16)%nat.
Proof.
  destruct (for_from 16 0 (fun _ p => phit_pool_harvest p) phit_pool_init w)
    as [p' w'] eqn:E.
  pose proof (phit_prng_init_run w p' w' E) as E0.
  exists (mkPrng p' 0), w'.
  split; [exact E0|].
  split; [transitivity (phit_prng_init w); [apply prng_init_same|exact E0]|].
  apply harvest_loop in E; [|apply pool_init_wf].
  destruct E as (Hwf & Hm & Hb & Hc & Ht).
  split; [exact Hwf|].
  split; [exact Hm|].
  split; [exact Hb|].
  split; [reflexivity|]. split; [exact Hc|exact Ht].
Qed.

Lemma phit_prng_u64_facts rng w v rng' w' :
  pool_wf (prng_pool rng) ->
  phit_prng_u64 rng w = (v, rng', w') ->
  pool_wf (prng_pool rng')
  /\ is_u64 v
  /\ mix_counter (prng_pool rng') = u64 (mix_counter (prng_pool rng) + 8)
  /\ clock w' = clock w
  /\ ticks w' = (ticks w + 4)%nat.
Proof.
  intros Hwf E. pose proof Hwf as (Hlen & _).
  pose proof (phit_pool_extract_wf _ w Hwf) as [H1 H2].
  pose proof (mix_counter_extract (prng_pool rng) w) as H3.
  pose proof (phit_pool_extract_run _ w Hlen) as R. cbv zeta in R.
  apply (f_equal snd) in R. cbn [snd] in R.
  unfold phit_prng_u64, bind, ret in E.
  destruct (phit_pool_extract (prng_pool rng) w) as [[o p'] w''].
  cbn [fst snd] in *. injection E as <- <- <-. cbn [prng_pool].
  subst w''.
  split; [exact H1|]. split; [exact H2|]. split; [exact H3|].
  split; reflexivity.
Qed.

Lemma draws_facts k : forall rng w vs rng' w',
  pool_wf (prng_pool rng) ->
  draws k rng w = (vs, rng', w') ->
  pool_wf (prng_pool rng')
  /\ Forall is_u64 vs
  /\ mix_counter (prng_pool rng') =
       u64 (mix_counter (prng_pool rng) + 8 * Z.of_nat k)
  /\ clock w' = clock w
  /\ ticks w' = (ticks w + 4 * k)%nat.
Proof.
  induction k as [|k IH]; intros rng w vs rng' w' Hwf E; cbn [draws] in E.
  - injection E as <- <- <-. pose proof Hwf as (_ & _ & Hm & _).
    cbn [Z.of_nat]. rewrite Z.mul_0_r, Z.add_0_r, u64_small by exact Hm.
    split; [exact Hwf|]. split; [constructor|].
    split; [reflexivity|]. split; [reflexivity|lia].
  - destruct (phit_prng_u64 rng w) as [[v0 rng0] w0] eqn:E0.
    destruct (draws k rng0 w0) as [[vs0 rng1] w1] eqn:E1.
    injection E as <- <- <-.
    destruct (phit_prng_u64_facts _ _ _ _ _ Hwf E0) as (W0 & V0 & M0 & C0 & T0).
    destruct (IH _ _ _ _ _ W0 E1) as (W1 & V1 & M1 & C1 & T1).
    split; [exact W1|]. split; [constructor; assumption|].
    split; [rewrite M1, M0, u64_add_u64; f_equal; lia|].
    split; [congruence|lia].
Qed.

(** X15. One draw of the generator, on a well-formed pool: [phit_prng_u64]
    returns a 64-bit value, reads the timer four times, advances the mix
    counter by 8 modulo 2^64 and leaves the pool well formed;
    [phit_prng_u32] makes the same draw and returns its upper 32 bits, so
    the same state and world follow. *)
Theorem prng_draw (rng : phit_prng_t) (w : World) :
  pool_wf (prng_pool rng) ->
  exists v rng' w',
    phit_prng_u64 rng w = (v, rng', w')
    /\ phit_prng_u32 rng w = (v / 2 ^ 32, rng', w')
    /\ 0 <= v < 2 ^ 64
    /\ 0 <= v / 2 ^ 32 < 2 ^ 32
    /\ pool_wf (prng_pool rng')
    /\ mix_counter (prng_pool rng') = u64 (mix_counter (prng_pool rng) + 8)
    /\ generated rng' = u64 (generated rng + 1)
    /\ clock w' = clock w
    /\ ticks w' = (ticks w + 4)%nat.
Proof.
  intros Hwf.
  destruct (phit_prng_u64 rng w) as [[v rng'] w'] eqn:E.
  destruct (phit_prng_u64_facts _ _ _ _ _ Hwf E) as (W & V & Mc & C & T).
  pose proof (phit_prng_u64_generated _ _ _ _ _ E) as G.
  exists v, rng', w'.
  assert (Hhi : 0 <= v / 2 ^ 32 < 2 ^ 32).
  { unfold is_u64 in V. split; [apply Z.div_pos; lia|].
    apply Z.div_lt_upper_bound; lia. }
  split; [reflexivity|].
  split.
  { unfold phit_prng_u32, bind, ret. rewrite E. cbn [fst snd].
    rewrite Z.shiftr_div_pow2 by lia. rewrite u32_small by exact Hhi.
    reflexivity. }
  split; [exact V|]. split; [exact Hhi|]. split; [exact W|].
  split; [exact Mc|]. split; [exact G|]. split; [exact C|exact T].
Qed.

Lemma le_bytes_are_bytes n : forall v, Forall is_byte (le_bytes n v).
Proof.
  induction n as [|n IH]; intros v; cbn [le_bytes]; constructor.
  - unfold is_byte. apply Z.mod_pos_bound. lia.
  - apply IH.
Qed.

Lemma Forall_firstn_skipn (P : Z -> Prop) n l :
  Forall P l -> Forall P (firstn n l) /\ Forall P (skipn n l).
Proof.
  intros H. rewrite <- (firstn_skipn n l) in H.
  apply Forall_app in H. exact H.
Qed.

(** X16. What a fill costs and keeps: for [0 <= n] within the buffer and a
    well-formed pool, [phit_prng_fill] reads the timer exactly
    [4 * ceil(n/8)] times, advances the mix counter by [8 * ceil(n/8)]
    modulo 2^64, leaves the pool well formed, and a buffer of bytes stays a
    buffer of bytes. *)
Theorem fill_cost (rng : phit_prng_t) (buf : list Z) (n : Z) (w : World) :
  0 <= n -> (Z.to_nat n <= length buf)%nat ->
  pool_wf (prng_pool rng) -> Forall is_byte buf ->
  exists rng' buf' w',
    phit_prng_fill rng buf n w = Returns (rng', buf', w')
    /\ ticks w' = (ticks w + 4 * Z.to_nat ((n + 7) / 8))%nat
    /\ clock w' = clock w
    /\ mix_counter (prng_pool rng') =
         u64 (mix_counter (prng_pool rng) + 8 * ((n + 7) / 8))
    /\ pool_wf (prng_pool rng')
    /\ Forall is_byte buf'.
Proof.
  intros Hn Hb Hwf Hbytes.
  destruct (draws (Z.to_nat ((n + 7) / 8)) rng w) as [[vs rng'] w'] eqn:Ed.
  destruct (draws_facts _ _ _ _ _ _ Hwf Ed) as (W & _ & Mc & C & T).
  eexists rng', _, w'.
  split; [apply (phit_prng_fill_run rng buf n w vs rng' w' Hn Hb Ed)|].
  split; [exact T|]. split; [exact C|].
  split.
  { rewrite Mc. f_equal. f_equal. f_equal.
    assert (0 <= (n + 7) / 8) by (apply Z.div_pos; lia). lia. }
  split; [exact W|].
  apply Forall_app. split.
  - apply Forall_firstn_skipn. apply Forall_flat_map.
    apply Forall_forall. intros v _. apply le_bytes_are_bytes.
  - apply Forall_firstn_skipn. exact Hbytes.
Qed.

(** X17. A fill of no positive length does nothing: for [len <= 0]
    (negative lengths included) no value is drawn, the timer is not read,
    and the buffer, even an empty one, is returned as it was. *)
Theorem fill_nothing (rng : phit_prng_t) (buf : list Z) (len : Z) (w : World) :
  len <= 0 -> phit_prng_fill rng buf len w = Returns (rng, buf, w).
Proof.
  intros Hlen. unfold phit_prng_fill.
  assert (Hq : Z.to_nat (len / 8) = 0%nat).
  { assert (len / 8 <= 0) by (apply Z.div_le_upper_bound; lia). lia. }
  rewrite (fill_while_run rng buf 0 len w [] rng w);
    [|lia|rewrite Hq; reflexivity].
  rewrite Hq. cbn [obind]. cbv beta iota.
  cbn [firstn flat_map app Nat.mul Nat.add Z.of_nat skipn].
  rewrite Z.mul_0_r, Z.sub_0_r.
  destruct (0 <? len) eqn:E; [apply Z.ltb_lt in E; lia|]. reflexivity.
Qed.

(** ** Phase-keyed encryption *)

Lemma store_nat_firstn (c : list Z) : forall i v,
  (i < length c)%nat -> firstn (S i) (store_nat c i v) = firstn i c ++ [v].
Proof.
  induction c as [|h t IH]; intros i v Hi; cbn [length] in Hi; [lia|].
  destruct i as [|i]; cbn [store_nat firstn app]; [reflexivity|].
  f_equal. apply IH. lia.
Qed.

Lemma store_nat_skipn (c : list Z) : forall i m v,
  skipn (S i + m) (store_nat c i v) = skipn (S i + m) c.
Proof.
  induction c as [|h t IH]; intros i m v; [destruct i; reflexivity|].
  destruct i as [|i]; cbn [store_nat skipn Nat.add]; [reflexivity|].
  apply IH.
Qed.

Lemma firstn_as_map (l : list Z) : forall n,
  (n <= length l)%nat -> map (fun j => nth j l 0) (seq 0 n) = firstn n l.
Proof.
  induction l as [|a l IH]; intros n Hn; cbn [length] in Hn.
  - replace n with 0%nat by lia. reflexivity.
  - destruct n as [|n]; [reflexivity|].
    cbn [seq map firstn nth]. f_equal.
    rewrite <- seq_shift, map_map. cbn [nth]. apply IH. lia.
Qed.

Lemma nth_map_seq (f : nat -> Z) n j rest :
  (j < n)%nat -> nth j (map f (seq 0 n) ++ rest) 0 = f j.
Proof.
  intros Hj. rewrite app_nth1 by (rewrite length_map, length_seq; exact Hj).
  rewrite (nth_indep _ 0 (f 0%nat)) by (rewrite length_map, length_seq; exact Hj).
  rewrite map_nth, seq_nth by exact Hj. reflexivity.
Qed.

Section PhaseCrypto.
Variables phase_key_t double : Type.
Variable phase_seed : phase_key_t -> double -> Z -> Z.

Lemma keystream_is_byte key t index :
  is_byte (Crypto.phase_keystream_byte _ _ phase_seed key t index).
Proof.
  unfold Crypto.phase_keystream_byte, is_byte. cbv zeta.
  change 0xFF with (Z.ones 8). rewrite Z.land_ones by lia.
  apply Z.mod_pos_bound. lia.
Qed.

Lemma encrypt_from_run key t plain n : forall i cipher,
  (i + n <= length plain)%nat -> (i + n <= length cipher)%nat ->
  Crypto.encrypt_from _ _ phase_seed key t plain n (Z.of_nat i) cipher =
  Returns
    (firstn i cipher
       ++ map (fun j =>
                 Z.lxor (nth j plain 0)
                   (Crypto.phase_keystream_byte _ _ phase_seed key t
                      (Z.of_nat j)) mod 2 ^ 8)
              (seq i n)
       ++ skipn (i + n) cipher).
Proof.
  induction n as [|n IH]; intros i cipher Hp Hc.
  - cbn [Crypto.encrypt_from seq map app]. rewrite Nat.add_0_r, firstn_skipn.
    reflexivity.
  - cbn [Crypto.encrypt_from]. rewrite Nat2Z.id.
    rewrite (nth_error_nth' plain 0) by lia.
    destruct (i <? length cipher)%nat eqn:E; [|apply Nat.ltb_ge in E; lia].
    replace (Z.of_nat i + 1) with (Z.of_nat (S i)) by lia.
    rewrite IH by (unfold store; rewrite ?length_store_nat; lia).
    unfold store. rewrite Nat2Z.id.
    rewrite store_nat_firstn by lia.
    replace (S i + n)%nat with (S i + n)%nat by reflexivity.
    rewrite store_nat_skipn.
    cbn [seq map]. rewrite <- app_assoc. cbn [app].
    replace (i + S n)%nat with (S i + n)%nat by lia. reflexivity.
Qed.

(** X18. Decryption undoes encryption at the same key and time: for a
    plaintext of [len] bytes, [phase_encrypt] followed by [phase_decrypt]
    (which is the same XOR with the keystream) gives the plaintext back,
    whatever the keystream bytes are.  Each call writes exactly the first
    [len] bytes of its output array, each a byte, and leaves the rest. *)
Theorem phase_round_trip key t (plain cipher out : list Z) (len : Z) :
  (Z.to_nat len <= length plain)%nat ->
  (Z.to_nat len <= length cipher)%nat ->
  (Z.to_nat len <= length out)%nat ->
  Forall is_byte plain ->
  exists c' o',
    Crypto.phase_encrypt _ _ phase_seed key t plain cipher len = Returns c'
    /\ Crypto.phase_decrypt _ _ phase_seed key t c' out len = Returns o'
    /\ firstn (Z.to_nat len) o' = firstn (Z.to_nat len) plain
    /\ skipn (Z.to_nat len) o' = skipn (Z.to_nat len) out
    /\ skipn (Z.to_nat len) c' = skipn (Z.to_nat len) cipher
    /\ length c' = length cipher
    /\ Forall is_byte (firstn (Z.to_nat len) c').
Proof.
  intros Hp Hc Ho Hbytes.
  unfold Crypto.phase_decrypt, Crypto.phase_encrypt.
  set (n := Z.to_nat len) in *.
  set (ks := fun j => Crypto.phase_keystream_byte _ _ phase_seed key t
                        (Z.of_nat j)).
  set (f := fun j => Z.lxor (nth j plain 0) (ks j) mod 2 ^ 8).
  pose proof (encrypt_from_run key t plain n 0 cipher Hp Hc) as E1.
  cbn [Z.of_nat firstn app Nat.add] in E1. fold ks in E1. fold f in E1.
  set (c' := map f (seq 0 n) ++ skipn n cipher) in *.
  assert (Hlc : length c' = length cipher).
  { unfold c'. rewrite length_app, length_map, length_seq, length_skipn. lia. }
  pose proof (encrypt_from_run key t c' n 0 out ltac:(lia) Ho) as E2.
  cbn [Z.of_nat firstn app Nat.add] in E2. fold ks in E2.
  exists c', (map (fun j => Z.lxor (nth j c' 0) (ks j) mod 2 ^ 8) (seq 0 n)
               ++ skipn n out).
  assert (Hfc : firstn n c' = map f (seq 0 n)).
  { unfold c'. rewrite firstn_app, length_map, length_seq, Nat.sub_diag.
    cbn [firstn]. rewrite app_nil_r. apply firstn_all2.
    rewrite length_map, length_seq. lia. }
  split; [exact E1|]. split; [exact E2|].
  split.
  { rewrite firstn_app, length_map, length_seq, Nat.sub_diag.
    cbn [firstn]. rewrite app_nil_r.
    rewrite firstn_all2 by (rewrite length_map, length_seq; lia).
    rewrite <- (firstn_as_map plain n Hp).
    apply map_ext_in. intros j Hj. apply in_seq in Hj.
    unfold c'. rewrite nth_map_seq by lia. unfold f.
    assert (Bp : is_byte (nth j plain 0)).
    { rewrite Forall_forall in Hbytes. apply Hbytes. apply nth_In. lia. }
    pose proof (keystream_is_byte key t (Z.of_nat j)) as Bk. fold (ks j) in Bk.
    unfold is_byte in Bp, Bk.
    assert (Bx : 0 <= Z.lxor (nth j plain 0) (ks j) < 2 ^ 8)
      by (apply lxor_range; lia).
    rewrite (Z.mod_small _ _ Bx).
    rewrite Z.lxor_assoc, Z.lxor_nilpotent, Z.lxor_0_r.
    apply Z.mod_small. lia. }
  split.
  { rewrite skipn_app, length_map, length_seq, Nat.sub_diag.
    rewrite skipn_all2 by (rewrite length_map, length_seq; lia).
    reflexivity. }
  split.
  { unfold c'. rewrite skipn_app, length_map, length_seq, Nat.sub_diag.
    rewrite skipn_all2 by (rewrite length_map, length_seq; lia).
    reflexivity. }
  split; [exact Hlc|].
  rewrite Hfc. apply Forall_forall. intros b Hb.
  apply in_map_iff in Hb. destruct Hb as (j & <- & _).
  unfold f, is_byte. change 256 with (2 ^ 8). apply Z.mod_pos_bound. lia.
Qed.

End PhaseCrypto.

(** ** The worker loop of the scheduler *)

Lemma scheduler_route_run k w :
  0 < k <= INT_MAX ->
  exists r w',
    Scheduler.phit_route k w = Returns (r, w')
    /\ 0 <= r < k /\ clock w' = clock w /\ ticks w' = S (ticks w).
Proof.
  intros Hk. unfold INT_MAX in Hk.
  unfold Scheduler.phit_route, write_sink, phit_now_ns, umod.
  cbn [clock ticks phit__sink]. cbv zeta.
  set (s := Scheduler.phit_hash _). clearbody s.
  rewrite u32_small by lia.
  destruct (k =? 0) eqn:E; [apply Z.eqb_eq in E; lia|].
  cbn [obind].
  pose proof (Z.mod_pos_bound s k ltac:(lia)) as Hb.
  rewrite int32_small by lia.
  eexists _, _. split; [reflexivity|].
  split; [exact Hb|]. split; reflexivity.
Qed.

Lemma worker_loop_run n : forall i a w,
  0 < Scheduler.num_workers a <= INT_MAX ->
  0 <= Scheduler.tasks_done a ->
  Scheduler.tasks_done a + Z.of_nat n <= INT_MAX ->
  exists a' w',
    Scheduler.worker_loop n i a w = Returns (a', w')
    /\ Scheduler.worker_id a' = Scheduler.worker_id a
    /\ Scheduler.num_workers a' = Scheduler.num_workers a
    /\ Scheduler.tasks_done a <= Scheduler.tasks_done a'
         <= Scheduler.tasks_done a + Z.of_nat n
    /\ clock w' = clock w
    /\ ticks w' = (ticks w + n)%nat
    /\ (~ 0 <= Scheduler.worker_id a < Scheduler.num_workers a -> a' = a)
    /\ (Scheduler.num_workers a = 1 -> Scheduler.worker_id a = 0 ->
          Scheduler.tasks_done a' = Scheduler.tasks_done a + Z.of_nat n).
Proof.
  induction n as [|n IH]; intros i a w Hk Hd Hfit.
  - exists a, w. cbn [Scheduler.worker_loop].
    split; [reflexivity|]. repeat split; try reflexivity; lia.
  - cbn [Scheduler.worker_loop].
    destruct (scheduler_route_run _ w Hk) as (r & w1 & Er & Hr & Hc & Ht).
    rewrite Er. cbn [obind]. cbv zeta beta iota.
    unfold INT_MAX in *.
    destruct (r =? Scheduler.worker_id a) eqn:E.
    + apply Z.eqb_eq in E.
      set (a1 := Scheduler.mkArg _ _ _ _).
      assert (Hd1 : Scheduler.tasks_done a1 = Scheduler.tasks_done a + 1).
      { unfold a1. cbn [Scheduler.tasks_done]. apply int32_small. lia. }
      destruct (IH (i + 1) a1 w1) as (a' & w' & El & Hid & Hnw & Htd & Hc' & Ht' & _ & Hall).
      { exact Hk. } { lia. } { lia. }
      exists a', w'. split; [exact El|].
      split; [exact Hid|]. split; [exact Hnw|].
      split; [lia|]. split; [congruence|]. split; [lia|].
      split; [intros Hout; exfalso; apply Hout; lia|].
      intros H1 H0. rewrite (Hall H1 H0). lia.
    + apply Z.eqb_neq in E.
      destruct (IH (i + 1) a w1 Hk Hd ltac:(lia))
        as (a' & w' & El & Hid & Hnw & Htd & Hc' & Ht' & Hout & Hall).
      exists a', w'. split; [exact El|].
      split; [exact Hid|]. split; [exact Hnw|].
      split; [lia|]. split; [congruence|]. split; [lia|].
      split; [exact Hout|].
      intros H1 H0. exfalso. lia.
Qed.

(** X19. One thread's [worker_thread] with [num_workers > 0]: it returns
    after exactly 50000 routings (one timer read each), keeps its id and
    worker count, and has done between 0 and 50000 tasks; a worker whose id
    is not in [0, num_workers) does no task at all and ends with result 0,
    and the only worker of a one-worker pool does all 50000.  With
    [num_workers = 0] the first routing is a remainder by zero. *)
Theorem worker_thread_bounds (a : Scheduler.thread_arg_t) (w : World) :
  0 <= Scheduler.num_workers a <= INT_MAX ->
  (Scheduler.num_workers a = 0 -> Scheduler.worker_thread a w = Undefined)
  /\ (0 < Scheduler.num_workers a ->
      exists a' w',
        Scheduler.worker_thread a w = Returns (a', w')
        /\ Scheduler.worker_id a' = Scheduler.worker_id a
        /\ Scheduler.num_workers a' = Scheduler.num_workers a
        /\ 0 <= Scheduler.tasks_done a' <= 50000
        /\ clock w' = clock w
        /\ ticks w' = (ticks w + Z.to_nat 50000)%nat
        /\ (~ 0 <= Scheduler.worker_id a < Scheduler.num_workers a ->
              Scheduler.tasks_done a' = 0 /\ Scheduler.result a' = 0)
        /\ (Scheduler.num_workers a = 1 -> Scheduler.worker_id a = 0 ->
              Scheduler.tasks_done a' = 50000)).
Proof.
  intros Hk. unfold Scheduler.worker_thread. cbv zeta. split.
  - intros H0.
    destruct (Z.to_nat 50000) as [|n] eqn:E; [lia|].
    cbn [Scheduler.worker_loop Scheduler.num_workers]. rewrite H0.
    reflexivity.
  - intros Hpos.
    set (a0 := Scheduler.mkArg _ _ 0 0).
    destruct (worker_loop_run (Z.to_nat 50000) 0 a0 w)
      as (a' & w' & El & Hid & Hnw & Htd & Hc & Ht & Hout & Hall).
    { unfold a0. cbn [Scheduler.num_workers]. lia. }
    { unfold a0. cbn [Scheduler.tasks_done]. lia. }
    { unfold a0, INT_MAX. cbn [Scheduler.tasks_done]. lia. }
    unfold a0 in *. cbn [Scheduler.worker_id Scheduler.num_workers
                          Scheduler.tasks_done] in *.
    exists a', w'. split; [exact El|].
    split; [exact Hid|]. split; [exact Hnw|].
    split; [lia|]. split; [exact Hc|]. split; [exact Ht|].
    split.
    + intros Ho. rewrite (Hout Ho). split; reflexivity.
    + intros H1 H0. rewrite (Hall H1 H0). lia.
Qed.

(** ** The stand-alone generator of [phit_prng.c] *)

(** X20. The generator written out in [phit_prng.c] is the generator of
    the library at its default configuration (4 lanes, 20 workload
    iterations): [pool_feed], [pool_harvest], [pool_extract] and
    [prng_u64] return the values and leave the pool, the generator and the
    world that [phit_pool_feed], [phit_pool_harvest], [phit_pool_extract]
    and [phit_prng_u64] do, on every pool and for every timer. *)
Theorem standalone_generator_same
  (p : phit_pool_t) (sample : Z) (rng : phit_prng_t) (w : World) :
  pool_feed p sample = phit_pool_feed p sample
  /\ pool_harvest p w = phit_pool_harvest p w
  /\ pool_extract p w = phit_pool_extract p w
  /\ prng_u64 rng w = phit_prng_u64 rng w.
Proof.
  split; [apply pool_feed_same|].
  split; [apply pool_harvest_same|].
  split; [apply pool_extract_same|apply prng_u64_same].
Qed.

(** ** Instances of the further properties at concrete inputs *)

Lemma pool_wf_invariant_witness :
  pool_wf phit_pool_init /\ pool_wf (phit_pool_feed phit_pool_init 1).
Proof.
  split; [exact pool_init_wf|].
  exact (proj1 (proj2 (pool_wf_invariant phit_pool_init 1 world0
                         pool_init_wf))).
Defined.

Lemma hash32_one_to_one_witness :
  0 <= 42 < 2 ^ 32 /\ 0 <= 43 < 2 ^ 32
  /\ phit_hash32 42 <> phit_hash32 43.
Proof.
  split; [lia|]. split; [lia|].
  intros H.
  pose proof (proj1 (proj1 (hash32_one_to_one 42 43 ltac:(lia) ltac:(lia))) H)
    as E.
  discriminate E.
Defined.

Lemma hash64_one_to_one_witness :
  0 <= 42 < 2 ^ 64 /\ 0 <= 43 < 2 ^ 64
  /\ phit_hash64 42 <> phit_hash64 43.
Proof.
  split; [lia|]. split; [lia|].
  intros H.
  pose proof (proj1 (hash64_one_to_one 42 43 ltac:(lia) ltac:(lia)) H) as E.
  discriminate E.
Defined.

Lemma compound_sample_timer_low32_witness :
  (forall i, (i < Z.to_nat 2)%nat ->
     u32 (clock world0 (ticks world0 + i)) =
     u32 (clock (mkWorld (fun _ => 2 ^ 32) 0 0)
                (ticks (mkWorld (fun _ => 2 ^ 32) 0 0) + i)))
  /\ fst (phit_sample_compound 2 world0) =
     fst (phit_sample_compound 2 (mkWorld (fun _ => 2 ^ 32) 0 0)).
Proof.
  assert (H : forall i, (i < Z.to_nat 2)%nat ->
     u32 (clock world0 (ticks world0 + i)) =
     u32 (clock (mkWorld (fun _ => 2 ^ 32) 0 0)
                (ticks (mkWorld (fun _ => 2 ^ 32) 0 0) + i))).
  { intros i _. reflexivity. }
  split; [exact H|].
  exact (compound_sample_timer_low32 2 world0 _ H).
Defined.

Lemma feed_separates_samples_witness :
  length (pool phit_pool_init) = 4%nat
  /\ phit_pool_feed phit_pool_init 1 <> phit_pool_feed phit_pool_init 2.
Proof.
  split; [reflexivity|].
  intros H.
  pose proof (proj1 (feed_separates_samples phit_pool_init 1 2 eq_refl) H)
    as E.
  discriminate E.
Defined.

Lemma feed_one_to_one_witness :
  pool_wf phit_pool_init
  /\ pool_wf (phit_pool_feed phit_pool_init 5)
  /\ phit_pool_feed phit_pool_init 1 <>
     phit_pool_feed (phit_pool_feed phit_pool_init 5) 1.
Proof.
  split; [exact pool_init_wf|].
  split; [exact (phit_pool_feed_wf _ 5 pool_init_wf)|].
  intros H.
  pose proof (feed_one_to_one _ _ 1 pool_init_wf
                (phit_pool_feed_wf _ 5 pool_init_wf) H) as E.
  apply (f_equal mix_counter) in E.
  discriminate E.
Defined.

Lemma extract_output_determined_witness :
  pool_wf phit_pool_init
  /\ pool (snd (fst (phit_pool_extract phit_pool_init world0))) =
     pool (snd (fst (phit_pool_extract phit_pool_init world0)))
  /\ fst (fst (phit_pool_extract phit_pool_init world0)) =
     fst (fst (phit_pool_extract phit_pool_init world0)).
Proof.
  split; [exact pool_init_wf|]. split; [reflexivity|].
  exact (proj1 (extract_output_determined phit_pool_init phit_pool_init
                  world0 world0 pool_init_wf pool_init_wf eq_refl)).
Defined.

Lemma route_defined_unless_zero_witness :
  - 2 ^ 31 <= -1 <= INT_MAX
  /\ phit_route (-1) world0 =
     Returns (int32 (fst (phit_sample_compound 2 world0) mod (2 ^ 32 + -1)),
              snd (phit_sample_compound 2 world0)).
Proof.
  split; [unfold INT_MAX; lia|].
  exact (proj2 (proj2 (route_defined_unless_zero (-1) world0
                         ltac:(unfold INT_MAX; lia))) ltac:(lia)).
Defined.

Lemma prng_range_unguarded_witness :
  0 <= 0 < 2 ^ 32
  /\ prng_range rng0 0 world0 = Undefined
  /\ phit_prng_range rng0 0 world0 = (0, rng0, world0).
Proof.
  split; [lia|].
  exact (proj2 (prng_range_unguarded rng0 0 world0 ltac:(lia)) eq_refl).
Defined.

Lemma scheduler_route_in_range_witness :
  0 < 8 <= INT_MAX
  /\ Scheduler.phit_route 8 world0 =
     Returns (fst (phit_sample world0) mod 8, snd (phit_sample world0))
  /\ 0 <= fst (phit_sample world0) mod 8 < 8.
Proof.
  split; [unfold INT_MAX; lia|].
  pose proof (scheduler_route_in_range 8 world0 ltac:(unfold INT_MAX; lia))
    as H.
  split; [exact (proj1 H)|exact (proj1 (proj2 H))].
Defined.

Lemma quantize_nearest_tick_witness :
  0 <= 100 < 2 ^ 64 /\ 100 <= 42 * INT_MAX + 20
  /\ 42 * phit__quantize 100 - 21 <= 100 <= 42 * phit__quantize 100 + 20.
Proof.
  split; [lia|]. split; [unfold INT_MAX; lia|].
  exact (proj1 (proj2 (proj1 (quantize_nearest_tick 100 0 ltac:(lia))
                         ltac:(unfold INT_MAX; lia)))).
Defined.

Lemma prng_draw_witness :
  pool_wf (prng_pool rng0)
  /\ exists v rng' w',
       phit_prng_u64 rng0 world0 = (v, rng', w')
       /\ 0 <= v < 2 ^ 64
       /\ ticks w' = (ticks world0 + 4)%nat.
Proof.
  split; [exact pool_init_wf|].
  destruct (prng_draw rng0 world0 pool_init_wf)
    as (v & rng' & w' & E & _ & Hv & _ & _ & _ & _ & _ & Ht).
  exists v, rng', w'. split; [exact E|]. split; [exact Hv|exact Ht].
Defined.

Lemma fill_cost_witness :
  0 <= 3 /\ (Z.to_nat 3 <= length [1; 2; 3; 4; 5])%nat
  /\ pool_wf (prng_pool rng0) /\ Forall is_byte [1; 2; 3; 4; 5]
  /\ exists rng' buf' w',
       phit_prng_fill rng0 [1; 2; 3; 4; 5] 3 world0 = Returns (rng', buf', w')
       /\ ticks w' = (ticks world0 + 4 * Z.to_nat ((3 + 7) / 8))%nat
       /\ Forall is_byte buf'.
Proof.
  assert (Hb : Forall is_byte [1; 2; 3; 4; 5]).
  { repeat (apply Forall_cons; [unfold is_byte; lia|]). apply Forall_nil. }
  split; [lia|]. split; [simpl; lia|].
  split; [exact pool_init_wf|]. split; [exact Hb|].
  destruct (fill_cost rng0 [1; 2; 3; 4; 5] 3 world0
              ltac:(lia) ltac:(simpl; lia) pool_init_wf Hb)
    as (rng' & buf' & w' & E & Ht & _ & _ & _ & Hf).
  exists rng', buf', w'. split; [exact E|]. split; [exact Ht|exact Hf].
Defined.

Lemma fill_nothing_witness :
  -1 <= 0
  /\ phit_prng_fill rng0 [1; 2] (-1) world0 = Returns (rng0, [1; 2], world0).
Proof.
  split; [lia|].
  exact (fill_nothing rng0 [1; 2] (-1) world0 ltac:(lia)).
Defined.

Lemma phase_round_trip_witness :
  (Z.to_nat 3 <= length [1; 2; 3])%nat
  /\ (Z.to_nat 3 <= length [0; 0; 0; 0])%nat
  /\ (Z.to_nat 3 <= length [9; 9; 9; 9])%nat
  /\ Forall is_byte [1; 2; 3]
  /\ exists c' o',
       Crypto.phase_encrypt unit unit (fun _ _ i => i) tt tt
         [1; 2; 3] [0; 0; 0; 0] 3 = Returns c'
       /\ Crypto.phase_decrypt unit unit (fun _ _ i => i) tt tt
            c' [9; 9; 9; 9] 3 = Returns o'
       /\ firstn (Z.to_nat 3) o' = firstn (Z.to_nat 3) [1; 2; 3].
Proof.
  assert (Hb : Forall is_byte [1; 2; 3]).
  { repeat (apply Forall_cons; [unfold is_byte; lia|]). apply Forall_nil. }
  split; [simpl; lia|]. split; [simpl; lia|]. split; [simpl; lia|].
  split; [exact Hb|].
  destruct (phase_round_trip unit unit (fun _ _ i => i) tt tt
              [1; 2; 3] [0; 0; 0; 0] [9; 9; 9; 9] 3
              ltac:(simpl; lia) ltac:(simpl; lia) ltac:(simpl; lia) Hb)
    as (c' & o' & Ee & Ed & Hf & _).
  exists c', o'. split; [exact Ee|]. split; [exact Ed|exact Hf].
Defined.

Lemma worker_thread_bounds_witness :
  0 <= Scheduler.num_workers (Scheduler.mkArg 0 1 7 7) <= INT_MAX
  /\ exists a' w',
       Scheduler.worker_thread (Scheduler.mkArg 0 1 7 7) world0 =
         Returns (a', w')
       /\ Scheduler.tasks_done a' = 50000.
Proof.
  assert (H : 0 <= Scheduler.num_workers (Scheduler.mkArg 0 1 7 7) <= INT_MAX).
  { cbn [Scheduler.num_workers]. unfold INT_MAX. lia. }
  split; [exact H|].
  destruct (proj2 (worker_thread_bounds (Scheduler.mkArg 0 1 7 7) world0 H)
              ltac:(cbn [Scheduler.num_workers]; lia))
    as (a' & w' & E & _ & _ & _ & _ & _ & _ & Hall).
  exists a', w'. split; [exact E|].
  exact (Hall eq_refl eq_refl).
Defined.
